(** * pdf_splitter.py: whitespace normalisation, sentence-bounded chunking,
      numbered output files and backend selection.

    Python [str] values are sequences of Unicode code points; they are
    modelled as lists of code points.  Lengths and the size parameter
    [chars_per_section] are Python integers, modelled in [Z]. *)

From Stdlib Require Import List ZArith NArith Arith Lia Bool Ascii.
From Stdlib Require String.
Import ListNotations.
Import String.StringSyntax.
Delimit Scope string_scope with string.

(** ** Strings *)

Definition char := N.
Definition str := list char.

(** An ASCII literal as a Python string. *)
Fixpoint lit (s : String.string) : str :=
  match s with
  | String.EmptyString => []
  | String.String a r => N_of_ascii a :: lit r
  end.
Arguments lit s%_string.

Definition SPACE : char := 32%N.
Definition NEWLINE : char := 10%N.

(** [len(s)] *)
Definition len (s : str) : Z := Z.of_nat (length s).

(** Truth value of a string: [if current_section:]. *)
Definition truthy (s : str) : bool :=
  match s with [] => false | _ :: _ => true end.

(** The characters for which [str.isspace] holds, which are also the ones
    matched by [\s] in a [str] pattern and removed by [str.strip()]. *)
Definition isspace (c : char) : bool :=
  ((9 <=? c) && (c <=? 13) || (28 <=? c) && (c <=? 32)
   || (c =? 133) || (c =? 160) || (c =? 5760)
   || (8192 <=? c) && (c <=? 8202)
   || (c =? 8232) || (c =? 8233) || (c =? 8239) || (c =? 8287)
   || (c =? 12288))%N.

(** ** clean_text *)

(** [re.sub(r'\s+', ' ', text)]: every maximal run of whitespace is replaced
    by one space.  [in_run] tells that the previous character belonged to
    the run being replaced. *)
Fixpoint sub_ws (in_run : bool) (s : str) : str :=
  match s with
  | [] => []
  | c :: r =>
      if isspace c
      then if in_run then sub_ws true r else SPACE :: sub_ws true r
      else c :: sub_ws false r
  end.

Fixpoint lstrip (s : str) : str :=
  match s with
  | [] => []
  | c :: r => if isspace c then lstrip r else s
  end.

Fixpoint rstrip (s : str) : str :=
  match s with
  | [] => []
  | c :: r =>
      match rstrip r with
      | [] => if isspace c then [] else [c]
      | r' => c :: r'
      end
  end.

(** [text.strip()] *)
Definition strip (s : str) : str := rstrip (lstrip s).

Definition clean_text (text : str) : str :=
  let text := sub_ws false text in
  let text := strip text in
  text.

(** Normalized text: text that [clean_text] leaves as it is. *)
Definition normalized (t : str) : Prop := clean_text t = t.

(** ** split_text_into_sections *)

Definition max_chars : Z := 4096.

Definition is_stop (c : char) : bool :=
  ((c =? 46) || (c =? 33) || (c =? 63))%N.

(** Scanner state of [re.split(r'(?<=[.!?])\s+', text)]. *)
Inductive scan : Type :=
| Plain      (* the previous character is not one of . ! ? *)
| AfterStop  (* the previous character is one of . ! ? *)
| InGap.     (* inside a separator that is being consumed *)

Definition cons_head (c : char) (l : list str) : list str :=
  match l with
  | [] => [[c]]
  | p :: ps => (c :: p) :: ps
  end.

(** The pieces of [s] from scanner state [st]; the first element of the
    result is the rest of the piece under construction. *)
Fixpoint re_split (st : scan) (s : str) : list str :=
  match s with
  | [] => [[]]
  | c :: r =>
      if isspace c then
        match st with
        | InGap => re_split InGap r
        | AfterStop => [] :: re_split InGap r
        | Plain => cons_head c (re_split Plain r)
        end
      else cons_head c (re_split (if is_stop c then AfterStop else Plain) r)
  end.

(** [sentences = re.split(r'(?<=[.!?])\s+', text)] *)
Definition split_sentences (text : str) : list str := re_split Plain text.

Definition potential_length (current_section sentence : str) : Z :=
  len current_section + len sentence + (if truthy current_section then 1 else 0).

Definition append_sentence (current_section sentence : str) : str :=
  if truthy current_section
  then current_section ++ SPACE :: sentence
  else sentence.

(** One iteration of the [for sentence in sentences] loop on the pair
    [(sections, current_section)]. *)
Definition step (chars_per_section : Z) (st : list str * str) (sentence : str)
  : list str * str :=
  let '(sections, current_section) := st in
  let pl := potential_length current_section sentence in
  if (pl >? chars_per_section)%Z && truthy current_section then
    if (pl <=? max_chars)%Z then
      (sections ++ [strip (append_sentence current_section sentence)], [])
    else
      (sections ++ [strip current_section], sentence)
  else
    (sections, append_sentence current_section sentence).

Definition split_text_into_sections (text : str) (chars_per_section : Z)
  : list str :=
  let sentences := split_sentences text in
  let '(sections, current_section) :=
    fold_left (step chars_per_section) sentences ([], []) in
  if truthy current_section
  then sections ++ [strip current_section]
  else sections.

Definition default_chars_per_section : Z := 4090.

(** [" ".join(l)] *)
Fixpoint join (l : list str) : str :=
  match l with
  | [] => []
  | [x] => x
  | x :: r => x ++ SPACE :: join r
  end.

(** ** save_sections_to_files *)

Definition ZERO : char := 48%N.

Definition digit (d : nat) : char := N.of_nat (48 + d).

(** Decimal digits of [n], most significant first; [fuel] bounds the number
    of digits. *)
Fixpoint digits_of (fuel n : nat) : str :=
  match fuel with
  | O => []
  | S f =>
      if n <? 10 then [digit n]
      else digits_of f (n / 10) ++ [digit (n mod 10)]
  end.

(** [str(n)] for a non-negative integer. *)
Definition str_of_nat (n : nat) : str := digits_of (S n) n.

(** [s.zfill(width)] *)
Definition zfill (width : Z) (s : str) : str :=
  if (width <=? len s)%Z then s
  else
    let pad := repeat ZERO (Z.to_nat (width - len s)) in
    match s with
    | c :: r => if ((c =? 43) || (c =? 45))%N then c :: pad ++ r else pad ++ s
    | [] => pad
    end.

(** What the function does to the outside, in order.  The file of a
    [WriteFile] is the one at [os.path.join(dir, name)], opened for writing
    as UTF-8 text, written and closed.  [MakedirsRaises] and [WriteRaises]
    are the same operations when they raise an exception [e] with
    [str(e) = message]: what they leave on the file system is not known
    (parent directories, an empty or truncated file). *)
Inductive event : Type :=
| Makedirs (path : str)
| WriteFile (dir name content : str)
| PrintLine (line : str)
| MakedirsRaises (path message : str)
| WriteRaises (dir name content message : str).

(** The file system as the function meets it: whether
    [os.makedirs(path, exist_ok=True)] raises, and whether opening
    [os.path.join(dir, name)], writing [content] or closing raises.  [None]
    is a normal return; [Some message] is an exception [e], an [Exception],
    with [str(e) = message]. *)
Record disk : Type := {
  makedirs_raises : str -> option str;
  write_raises : str -> str -> str -> option str
}.

Definition section_filename (base_name : str) (digits : Z) (i : nat) : str :=
  base_name ++ lit "_section_" ++ zfill digits (str_of_nat i) ++ lit ".txt".

(** [for i, section in enumerate(sections, i)]: what is done, in order,
    and the message of the exception that ended the loop, if one did. *)
Fixpoint save_loop (d : disk) (output_dir base_name : str)
    (total_sections : nat) (digits : Z) (i : nat) (sections : list str)
  : list event * option str :=
  match sections with
  | [] => ([], None)
  | section :: rest =>
      let filename := section_filename base_name digits i in
      match write_raises d output_dir filename section with
      | Some message =>
          ([WriteRaises output_dir filename section message], Some message)
      | None =>
          let char_count := length section in
          let '(evs, r) :=
            save_loop d output_dir base_name total_sections digits (S i) rest in
          (WriteFile output_dir filename section
           :: PrintLine (lit "Saved section " ++ str_of_nat i ++ lit "/"
                         ++ str_of_nat total_sections ++ lit ": " ++ filename
                         ++ lit " (" ++ str_of_nat char_count
                         ++ lit " characters)")
           :: evs,
           r)
      end
  end.

(** What the call does, in order, and the message of the exception it
    raises, if it raises. *)
Definition save_sections_to_files (d : disk) (sections : list str)
    (output_dir base_name : str) : list event * option str :=
  match makedirs_raises d output_dir with
  | Some message => ([MakedirsRaises output_dir message], Some message)
  | None =>
      let total_sections := length sections in
      let digits := len (str_of_nat total_sections) in
      let '(evs, r) :=
        save_loop d output_dir base_name total_sections digits 1 sections in
      (Makedirs output_dir :: evs, r)
  end.


(** The files written by a run: name and content, in order. *)
Definition files_written (evs : list event) : list (str * str) :=
  flat_map (fun e => match e with
                     | WriteFile _ name content => [(name, content)]
                     | _ => []
                     end) evs.

(** [int(s)] for a string of decimal digits. *)
Definition int_of_str (s : str) : nat :=
  fold_left (fun acc c => 10 * acc + (N.to_nat c - 48)) s 0.

Definition is_digit (c : char) : bool := ((48 <=? c) && (c <=? 57))%N.

(** ** extract_text_from_pdf *)

Inductive backend : Type := Pdfplumber | PyPDF2.

(** Exceptions: the two that [extract_text_from_pdf] raises itself, and
    whatever an extraction function raises, of a type [E] left open, which
    passes through unchanged. *)
Inductive exn (E : Type) : Type :=
| FileNotFoundError (msg : str)
| ImportError (msg : str)
| BackendError (e : E).
Arguments FileNotFoundError {E} msg.
Arguments ImportError {E} msg.
Arguments BackendError {E} e.

(** What a call consults or invokes, in order. *)
Inductive action : Type :=
| PathExists (path : str)        (* os.path.exists(path) *)
| ReadAvailable (b : backend)    (* PDFPLUMBER_AVAILABLE, PYPDF2_AVAILABLE *)
| Invoke (b : backend) (path : str).

(** The surroundings of a call: the file system, the two module-level
    availability flags set by the guarded imports, and what each extraction
    function does on a path (its result depends on the library it calls). *)
Record world (E : Type) : Type := {
  os_path_exists : str -> bool;
  PDFPLUMBER_AVAILABLE : bool;
  PYPDF2_AVAILABLE : bool;
  extract_text_with_pdfplumber : str -> E + str;
  extract_text_with_pypdf2 : str -> E + str
}.
Arguments os_path_exists {E} w path.
Arguments PDFPLUMBER_AVAILABLE {E} w.
Arguments PYPDF2_AVAILABLE {E} w.
Arguments extract_text_with_pdfplumber {E} w path.
Arguments extract_text_with_pypdf2 {E} w path.

(** Computations that record their actions and may raise. *)
Definition M (E A : Type) : Type := list action * (exn E + A).

Definition raise {E A} (e : exn E) : M E A := ([], inl e).

Definition bind {E A B} (m : M E A) (k : A -> M E B) : M E B :=
  match m with
  | (tr, inl e) => (tr, inl e)
  | (tr, inr a) => let '(tr', r) := k a in (tr ++ tr', r)
  end.

Notation "x <- m ;; k" := (bind m (fun x => k))
  (at level 61, m at next level, right associativity).

Definition path_exists {E} (w : world E) (path : str) : M E bool :=
  ([PathExists path], inr (os_path_exists w path)).

Definition available {E} (w : world E) (b : backend) : M E bool :=
  ([ReadAvailable b],
   inr (match b with
        | Pdfplumber => PDFPLUMBER_AVAILABLE w
        | PyPDF2 => PYPDF2_AVAILABLE w
        end)).

Definition invoke {E} (w : world E) (b : backend) (path : str) : M E str :=
  ([Invoke b path],
   match (match b with
          | Pdfplumber => extract_text_with_pdfplumber w path
          | PyPDF2 => extract_text_with_pypdf2 w path
          end) with
   | inl e => inl (BackendError e)
   | inr text => inr text
   end).

Definition not_found_message (pdf_path : str) : str :=
  lit "PDF file not found: " ++ pdf_path.

Definition no_backend_message : str :=
  lit "Neither pdfplumber nor PyPDF2 is available. Install with: pip install pdfplumber PyPDF2".

Definition extract_text_from_pdf {E} (w : world E) (pdf_path : str)
  : M E str :=
  found <- path_exists w pdf_path ;;
  if negb found then raise (FileNotFoundError (not_found_message pdf_path))
  else
    plumber <- available w Pdfplumber ;;
    if plumber then invoke w Pdfplumber pdf_path
    else
      pypdf2 <- available w PyPDF2 ;;
      if pypdf2 then invoke w PyPDF2 pdf_path
      else raise (ImportError no_backend_message).

(** Two sample surroundings: no file anywhere; files but no backend. *)
Definition absent_world : world unit :=
  {| os_path_exists := fun _ => false;
     PDFPLUMBER_AVAILABLE := true;
     PYPDF2_AVAILABLE := true;
     extract_text_with_pdfplumber := fun _ => inl tt;
     extract_text_with_pypdf2 := fun _ => inl tt |}.

Definition bare_world : world unit :=
  {| os_path_exists := fun _ => true;
     PDFPLUMBER_AVAILABLE := false;
     PYPDF2_AVAILABLE := false;
     extract_text_with_pdfplumber := fun _ => inl tt;
     extract_text_with_pypdf2 := fun _ => inl tt |}.

(** Whether an action consults or invokes a backend. *)
Definition touches_backend (a : action) : bool :=
  match a with
  | PathExists _ => false
  | ReadAvailable _ | Invoke _ _ => true
  end.

(** ** extract_text_with_pdfplumber, extract_text_with_pypdf2 *)

Module Pages.

(** What [page.extract_text()] does on a page: it raises an [Exception]
    [e] with [str(e) = message], or returns [None] or a string. *)
Inductive page : Type :=
| Fails (message : str)
| Gives (page_text : option str).

(** [if page_text:] *)
Definition has_text (page_text : option str) : bool :=
  match page_text with
  | Some (_ :: _) => true
  | _ => false
  end.

Definition warning_line (i : nat) (message : str) : str :=
  lit "Warning: Failed to extract text from page " ++ str_of_nat i
  ++ lit ": " ++ message.

Definition progress_line (i total_pages : nat) : str :=
  lit "Processed " ++ str_of_nat i ++ lit "/" ++ str_of_nat total_pages
  ++ lit " pages...".

(** [for i, page in enumerate(pages, i)], the loop of both functions, from
    the text gathered so far: the lines printed and the text at the end. *)
Fixpoint page_loop (total_pages i : nat) (pages : list page) (text : str)
  : list event * str :=
  match pages with
  | [] => ([], text)
  | Fails message :: rest =>
      let '(out, text') := page_loop total_pages (S i) rest text in
      (PrintLine (warning_line i message) :: out, text')
  | Gives page_text :: rest =>
      let text1 :=
        match page_text with
        | Some (c :: r) => text ++ (c :: r) ++ [NEWLINE]
        | _ => text
        end in
      let '(out, text') := page_loop total_pages (S i) rest text1 in
      ((if i mod 10 =? 0
        then [PrintLine (progress_line i total_pages)] else []) ++ out,
       text')
  end.

(** The body shared by the two functions: [opened] is what opening the
    document gave, an exception or the pages; [name] is the library named
    in the first line printed. *)
Definition extract_text_with {E} (name : str) (opened : E + list page)
  : list event * (E + str) :=
  match opened with
  | inl e => ([], inl e)
  | inr pages =>
      let total_pages := length pages in
      let '(out, text) := page_loop total_pages 1 pages [] in
      (PrintLine (lit "Extracting text from " ++ str_of_nat total_pages
                  ++ lit " pages using " ++ name ++ lit "...") :: out,
       inr text)
  end.

(** [pdfplumber_open] stands for [pdfplumber.open(pdf_path)] and its
    [pages]. *)
Definition extract_text_with_pdfplumber {E}
    (pdfplumber_open : str -> E + list page) (pdf_path : str)
  : list event * (E + str) :=
  extract_text_with (lit "pdfplumber") (pdfplumber_open pdf_path).

(** [pypdf2_reader] stands for [PyPDF2.PdfReader(open(pdf_path, 'rb'))] and
    its [pages]. *)
Definition extract_text_with_pypdf2 {E}
    (pypdf2_reader : str -> E + list page) (pdf_path : str)
  : list event * (E + str) :=
  extract_text_with (lit "PyPDF2") (pypdf2_reader pdf_path).

(** What a page adds to the text. *)
Definition contribution (pg : page) : str :=
  match pg with
  | Gives (Some (c :: r)) => (c :: r) ++ [NEWLINE]
  | _ => []
  end.

(** The lines printed for page number [i]. *)
Definition page_lines (total_pages : nat) (ipg : nat * page) : list event :=
  match ipg with
  | (i, Fails message) => [PrintLine (warning_line i message)]
  | (i, Gives _) =>
      if i mod 10 =? 0 then [PrintLine (progress_line i total_pages)] else []
  end.

End Pages.

(** ** main *)

(** Where a run takes place: the files that exist, the libraries that could
    be imported, and what each library finds in a document. *)
Record installation (E : Type) : Type := {
  file_exists : str -> bool;
  has_pdfplumber : bool;
  has_pypdf2 : bool;
  pdfplumber_open : str -> E + list Pages.page;
  pypdf2_reader : str -> E + list Pages.page
}.
Arguments file_exists {E} i path.
Arguments has_pdfplumber {E} i.
Arguments has_pypdf2 {E} i.
Arguments pdfplumber_open {E} i path.
Arguments pypdf2_reader {E} i path.

Definition world_of {E} (inst : installation E) : world E :=
  {| os_path_exists := file_exists inst;
     PDFPLUMBER_AVAILABLE := has_pdfplumber inst;
     PYPDF2_AVAILABLE := has_pypdf2 inst;
     extract_text_with_pdfplumber := fun path =>
       snd (Pages.extract_text_with_pdfplumber (pdfplumber_open inst) path);
     extract_text_with_pypdf2 := fun path =>
       snd (Pages.extract_text_with_pypdf2 (pypdf2_reader inst) path) |}.

(** What a call of [extract_text_from_pdf] prints (the lines of the
    extraction function it invokes) and its result. *)
Definition extract_traced {E} (inst : installation E) (pdf_path : str)
  : list event * (exn E + str) :=
  let '(actions, r) := extract_text_from_pdf (world_of inst) pdf_path in
  (flat_map (fun a =>
               match a with
               | Invoke Pdfplumber path =>
                   fst (Pages.extract_text_with_pdfplumber
                          (pdfplumber_open inst) path)
               | Invoke PyPDF2 path =>
                   fst (Pages.extract_text_with_pypdf2
                          (pypdf2_reader inst) path)
               | _ => []
               end) actions,
   r).

(** The parts of the Python runtime that [main] relies on: [int(s)] ([None]
    for a ValueError), [Path(p).stem], and [str(e)] for an exception of a
    library. *)
Record runtime (E : Type) : Type := {
  parse_int : str -> option Z;
  path_stem : str -> str;
  describe : E -> str
}.
Arguments parse_int {E} r s.
Arguments path_stem {E} r p.
Arguments describe {E} r e.

(** [str(e)] *)
Definition exn_str {E} (rt : runtime E) (e : exn E) : str :=
  match e with
  | FileNotFoundError msg => msg
  | ImportError msg => msg
  | BackendError e' => describe rt e'
  end.

(** [str(z)] for an integer. *)
Definition str_of_int (z : Z) : str :=
  if (z <? 0)%Z then 45%N :: str_of_nat (Z.to_nat (- z))
  else str_of_nat (Z.to_nat z).

(** How a run of [main] ends: it returns, [sys.exit(code)] is called, or
    the ValueError of [int(sys.argv[3])], raised outside the [try], is left
    uncaught. *)
Inductive ending : Type :=
| Completed
| SystemExit (code : Z)
| ValueError.

(** [sys.argv[2] if len(sys.argv) > 2 else "./sections"], on
    [rest = sys.argv[2:]]. *)
Definition output_dir_of (rest : list str) : str :=
  match rest with d :: _ => d | [] => lit "./sections" end.

(** [int(sys.argv[3]) if len(sys.argv) > 3 else 4090], on
    [rest = sys.argv[2:]]; [None] when [int] raises. *)
Definition target_of {E} (rt : runtime E) (rest : list str) : option Z :=
  match rest with
  | _ :: n :: _ => parse_int rt n
  | _ => Some 4090%Z
  end.

Definition usage_lines : list event :=
  [ PrintLine (lit "Usage: python pdf_splitter.py input.pdf [output_directory] [chars_per_section]");
    PrintLine (lit "Example: python pdf_splitter.py mybook.pdf ./sections 4090") ].

(** [main()] on [sys.argv = argv]: what it prints and does to the file
    system, in order, and how it ends. *)
Definition main {E} (rt : runtime E) (inst : installation E) (d : disk)
    (argv : list str) : list event * ending :=
  match argv with
  | [] | [_] => (usage_lines, SystemExit 1)
  | _ :: pdf_path :: rest =>
      let output_dir := output_dir_of rest in
      match target_of rt rest with
      | None => ([], ValueError)
      | Some chars_per_section =>
          let base_name := path_stem rt pdf_path in
          let head :=
            [ PrintLine (lit "Processing PDF: " ++ pdf_path);
              PrintLine (lit "Target characters per section: "
                         ++ str_of_int chars_per_section);
              PrintLine (lit "Output directory: " ++ output_dir);
              PrintLine [] ] in
          let '(out, r) := extract_traced inst pdf_path in
          match r with
          | inl e =>
              (head ++ out ++ [PrintLine (lit "Error: " ++ exn_str rt e)],
               SystemExit 1)
          | inr raw_text =>
              if negb (truthy (strip raw_text)) then
                (head ++ out
                 ++ [PrintLine (lit "Error: No text extracted from PDF. The PDF might be image-based or corrupted.")],
                 SystemExit 1)
              else
                let cleaned_text := clean_text raw_text in
                let total_chars := length cleaned_text in
                let sections :=
                  split_text_into_sections cleaned_text chars_per_section in
                let '(saved, raised) :=
                  save_sections_to_files d sections output_dir base_name in
                let done :=
                  head ++ out
                  ++ [ PrintLine (NEWLINE :: lit "Extracted "
                                  ++ str_of_nat total_chars
                                  ++ lit " characters from PDF");
                       PrintLine (lit "Splitting into sections of ~"
                                  ++ str_of_int chars_per_section
                                  ++ lit " characters...");
                       PrintLine (lit "Created "
                                  ++ str_of_nat (length sections)
                                  ++ lit " sections");
                       PrintLine [] ]
                  ++ saved in
                match raised with
                | Some message =>
                    (done ++ [PrintLine (lit "Error: " ++ message)],
                     SystemExit 1)
                | None =>
                    (done
                     ++ [PrintLine (NEWLINE
                                    :: lit "Completed! All sections saved to: "
                                    ++ output_dir)],
                     Completed)
                end
          end
      end
  end.

(** Whether an event changes the file system. *)
Definition touches_disk (e : event) : bool :=
  match e with
  | PrintLine _ => false
  | _ => true
  end.


Definition prints_only (l : list event) : bool :=
  forallb (fun e => negb (touches_disk e)) l.


(** The backends invoked by a call, in order. *)
Definition invoked (actions : list action) : list backend :=
  flat_map (fun a => match a with Invoke b _ => [b] | _ => [] end) actions.

(** A sample run: a three-page document of which the second page fails. *)
Definition sample_pages : list Pages.page :=
  [ Pages.Gives (Some (lit "One two. "));
    Pages.Fails (lit "bad page");
    Pages.Gives (Some (lit " Three!")) ].

Definition sample_installation : installation unit :=
  {| file_exists := fun _ => true;
     has_pdfplumber := true;
     has_pypdf2 := false;
     pdfplumber_open := fun _ => inr sample_pages;
     pypdf2_reader := fun _ => inl tt |}.

(** A file system on which nothing raises, and one that refuses the second
    file of a run on ["book"]. *)
Definition sound_disk : disk :=
  {| makedirs_raises := fun _ => None;
     write_raises := fun _ _ _ => None |}.

Definition second_file_refused : disk :=
  {| makedirs_raises := fun _ => None;
     write_raises := fun _ name _ =>
       if list_eq_dec N.eq_dec name (lit "book_section_2.txt")
       then Some (lit "disk full") else None |}.

(** A text with a sentence of 4101 characters between two short ones. *)
Definition oversized_text : str :=
  lit "A. " ++ repeat 97%N 4100 ++ lit ". B. C.".

(** The sentences of a text: the pieces that [re.split] gives, the empty
    text having none (its one piece is the empty string, which the loop
    leaves out). *)
Definition sentences (text : str) : list str :=
  match text with
  | [] => []
  | _ :: _ => split_sentences text
  end.

(** A two-page document whose text makes two chunks for the target 12. *)
Definition two_chunk_installation : installation unit :=
  {| file_exists := fun _ => true;
     has_pdfplumber := false;
     has_pypdf2 := true;
     pdfplumber_open := fun _ => inl tt;
     pypdf2_reader := fun _ =>
       inr [ Pages.Gives (Some (lit "A. B. C."));
             Pages.Gives (Some (lit "D. E. F.")) ] |}.

Definition sample_runtime : runtime unit :=
  {| parse_int := fun _ => Some 12%Z;
     path_stem := fun _ => lit "book";
     describe := fun _ => lit "unreadable" |}.

(** ** Shape of normalized text (used in the proofs) *)

(** Every whitespace character of [s] is a [SPACE] that does not follow
    another one; with [after_sp] the first character may not be one. *)
Fixpoint spaced (after_sp : bool) (s : str) : bool :=
  match s with
  | [] => true
  | c :: r =>
      if isspace c
      then (c =? SPACE)%N && negb after_sp && spaced true r
      else spaced false r
  end.

(** The last character of [s], if any, is not whitespace. *)
Fixpoint ends_tight (s : str) : bool :=
  match s with
  | [] => true
  | c :: r => match r with [] => negb (isspace c) | _ :: _ => ends_tight r end
  end.

Definition tidy (s : str) : bool := spaced true s && ends_tight s.

(** The last character of [s] exists and is one of . ! ? *)
Fixpoint ends_stop (s : str) : bool :=
  match s with
  | [] => false
  | c :: r => match r with [] => is_stop c | _ :: _ => ends_stop r end
  end.

(** A non-empty text without leading, trailing or repeated whitespace. *)
Definition piece (x : str) : Prop := tidy x = true /\ x <> [].

(** A piece that ends a sentence. *)
Definition closed (x : str) : Prop := piece x /\ ends_stop x = true.

(** A non-empty list of pieces, all closed except possibly the last. *)
Fixpoint good (l : list str) : Prop :=
  match l with
  | [] => False
  | x :: r =>
      piece x /\
      match r with [] => True | _ :: _ => ends_stop x = true /\ good r end
  end.

(** Every element preceded by a space; [join l] is its tail. *)
Definition joinsp (l : list str) : str := flat_map (fun x => SPACE :: x) l.

(** The text read so far, put in front of the piece under construction. *)
Definition prepend (p : str) (l : list str) : list str :=
  match l with
  | [] => [p]
  | h :: rest => (p ++ h) :: rest
  end.

Definition consistent (st : scan) (p : str) : Prop :=
  match st with
  | AfterStop => ends_stop p = true
  | InGap => p = []
  | Plain => True
  end.

(** The chunks a loop state stands for. *)
Definition view (st : list str * str) : list str :=
  fst st ++ (if truthy (snd st) then [snd st] else []).

(** What [split_text_into_sections] returns from a final loop state. *)
Definition finish (st : list str * str) : list str :=
  if truthy (snd st) then fst st ++ [strip (snd st)] else fst st.

(** A chunk within the hard cap, or a single sentence of [ss] on its own. *)
Definition within (ss : list str) (x : str) : Prop :=
  (len x <= max_chars)%Z \/ exists s, In s ss /\ x = strip s.

(** A chunk of at most [B] characters, or a single sentence of [ss] on its
    own. *)
Definition within_bound (B : Z) (ss : list str) (x : str) : Prop :=
  (len x <= B)%Z \/ exists s, In s ss /\ x = strip s.

(** Why chunk [c] was closed before chunk [d]: it had passed the target
    [T], or the sentence [s] that starts [d] would have taken it past both
    the target and the hard cap. *)
Definition filled (T : Z) (ss : list str) (c d : str) : Prop :=
  (T < len c)%Z
  \/ exists s tail, d = s ++ tail /\ In s ss
       /\ (T < len c + 1 + len s)%Z /\ (max_chars < len c + 1 + len s)%Z.

(** How far a chunk [c] may pass the target [T]: not at all, or it is one
    sentence of [ss]; or only by its last sentence [s], staying within the
    hard cap, what comes before [s] being within [T] or one sentence. *)
Definition near_target (T : Z) (ss : list str) (c : str) : Prop :=
  (len c <= T)%Z \/ In c ss
  \/ exists a s, c = a ++ SPACE :: s /\ In s ss /\ (len c <= max_chars)%Z
       /\ ((len a <= T)%Z \/ In a ss).

(** [R] holds between every two neighbours of [l]. *)
Fixpoint chain (R : str -> str -> Prop) (l : list str) : Prop :=
  match l with
  | [] => True
  | c :: r => match r with [] => True | d :: _ => R c d /\ chain R r end
  end.

(** [a < b] on Python strings: the lexicographic order of code points. *)
Fixpoint str_lt (a b : str) : Prop :=
  match a, b with
  | _, [] => False
  | [], _ :: _ => True
  | x :: a', y :: b' => (x < y)%N \/ (x = y /\ str_lt a' b')
  end.

(** The characters of [s] that are not whitespace, in order. *)
Definition visible (s : str) : str := filter (fun c => negb (isspace c)) s.

(** * Properties *)

Example split_abc_default :
  split_text_into_sections (lit "A. B. C.") default_chars_per_section
  = [lit "A. B. C."].
Proof. reflexivity. Qed.

Example split_sentences_abc :
  split_sentences (lit "A.  B! C") = [lit "A."; lit "B!"; lit "C"].
Proof. reflexivity. Qed.

Example split_sentences_empty : split_sentences [] = [[]].
Proof. reflexivity. Qed.

Example split_sentences_trailing_gap :
  split_sentences (lit "A. ") = [lit "A."; []].
Proof. reflexivity. Qed.

Example split_sentences_inner_stop :
  split_sentences (lit "e.g. 3.5 is? ok") = [lit "e.g."; lit "3.5 is?"; lit "ok"].
Proof. reflexivity. Qed.

Example split_long_second_sentence :
  split_text_into_sections (lit "A. Hello world. B.") 5
  = [lit "A. Hello world."; lit "B."].
Proof. reflexivity. Qed.

Example split_oversized_sentence :
  split_text_into_sections (repeat 97%N 4100 ++ lit ". B. C.")
    default_chars_per_section
  = [repeat 97%N 4100 ++ lit "."; lit "B. C."].
Proof. vm_compute. reflexivity. Qed.

Example clean_text_example :
  clean_text (10 :: lit "  A.  B " ++ [10; 9; 67; 10])%N = lit "A. B C".
Proof. reflexivity. Qed.

(** ** clean_text *)

Lemma isspace_SPACE : isspace SPACE = true.
Proof. reflexivity. Qed.

Lemma spaced_sub_ws s : forall q, spaced q (sub_ws q s) = true.
Proof.
  induction s as [|c r IH]; intros q; simpl; [reflexivity|].
  destruct (isspace c) eqn:Hc.
  - destruct q; [apply IH|].
    simpl. rewrite IH. reflexivity.
  - simpl. rewrite Hc. apply IH.
Qed.

Lemma spaced_lstrip s : forall q q',
  spaced q s = true -> spaced q' (lstrip s) = true.
Proof.
  induction s as [|c r IH]; intros q q' H; simpl in *; [reflexivity|].
  destruct (isspace c) eqn:Hc.
  - apply andb_true_iff in H as [_ H]. eapply IH; eassumption.
  - simpl. rewrite Hc. exact H.
Qed.

Lemma rstrip_cons c r :
  rstrip (c :: r) =
  if isspace c && negb (truthy (rstrip r)) then [] else c :: rstrip r.
Proof.
  simpl. destruct (rstrip r); simpl.
  - rewrite andb_true_r. reflexivity.
  - rewrite andb_false_r. reflexivity.
Qed.

(** [rstrip] is [lstrip] seen from the other end. *)
Lemma lstrip_snoc a : forall c,
  lstrip (a ++ [c])
  = match lstrip a with
    | [] => if isspace c then [] else [c]
    | l => l ++ [c]
    end.
Proof.
  induction a as [|x y IH]; intros c; [reflexivity|].
  change ((x :: y) ++ [c]) with (x :: (y ++ [c])). cbn [lstrip].
  destruct (isspace x); [apply IH|reflexivity].
Qed.

Lemma rstrip_rev s : rstrip s = rev (lstrip (rev s)).
Proof.
  induction s as [|c r IH]; [reflexivity|].
  cbn [rstrip rev]. rewrite lstrip_snoc, IH.
  destruct (lstrip (rev r)) as [|l0 l1].
  - simpl. destruct (isspace c); reflexivity.
  - rewrite rev_app_distr. simpl.
    destruct (rev l1 ++ [l0]) eqn:E; [|reflexivity].
    destruct (rev l1); discriminate.
Qed.

Lemma spaced_rstrip s : forall q,
  spaced q s = true -> spaced q (rstrip s) = true.
Proof.
  induction s as [|c r IH]; intros q H; [reflexivity|].
  rewrite rstrip_cons.
  destruct (isspace c && negb (truthy (rstrip r))); [reflexivity|].
  simpl in *. destruct (isspace c).
  - apply andb_true_iff in H as [H1 H2]. rewrite H1. simpl. apply IH, H2.
  - apply IH, H.
Qed.

Lemma ends_tight_rstrip s : ends_tight (rstrip s) = true.
Proof.
  induction s as [|c r IH]; [reflexivity|].
  simpl. destruct (rstrip r) as [|x y] eqn:E.
  - destruct (isspace c) eqn:Hc; simpl; [reflexivity|]. rewrite Hc. reflexivity.
  - exact IH.
Qed.

Lemma tidy_clean_text s : tidy (clean_text s) = true.
Proof.
  unfold tidy, clean_text, strip. apply andb_true_iff. split.
  - apply spaced_rstrip. eapply spaced_lstrip. apply spaced_sub_ws.
  - apply ends_tight_rstrip.
Qed.

Lemma spaced_sub_ws_id s : forall q, spaced q s = true -> sub_ws q s = s.
Proof.
  induction s as [|c r IH]; intros q H; simpl in *; [reflexivity|].
  destruct (isspace c).
  - apply andb_true_iff in H as [H1 H2].
    apply andb_true_iff in H1 as [H0 H1].
    apply N.eqb_eq in H0. subst c.
    destruct q; [discriminate|]. f_equal. apply IH, H2.
  - f_equal. apply IH, H.
Qed.

Lemma spaced_weaken s : spaced true s = true -> spaced false s = true.
Proof.
  destruct s as [|c r]; simpl; [reflexivity|].
  destruct (isspace c); [|tauto].
  rewrite andb_false_r. discriminate.
Qed.

Lemma spaced_lstrip_id s : spaced true s = true -> lstrip s = s.
Proof.
  destruct s as [|c r]; simpl; [reflexivity|].
  destruct (isspace c); [|reflexivity].
  rewrite andb_false_r. discriminate.
Qed.

Lemma ends_tight_rstrip_id s : ends_tight s = true -> rstrip s = s.
Proof.
  induction s as [|c r IH]; intros H; [reflexivity|].
  simpl in *. destruct r as [|x y].
  - simpl. destruct (isspace c); [discriminate|reflexivity].
  - rewrite (IH H). reflexivity.
Qed.

Lemma tidy_strip_id s : tidy s = true -> strip s = s.
Proof.
  unfold tidy, strip. intros H. apply andb_true_iff in H as [H1 H2].
  rewrite (spaced_lstrip_id _ H1). apply ends_tight_rstrip_id, H2.
Qed.

Lemma tidy_clean_text_id s : tidy s = true -> clean_text s = s.
Proof.
  intros H. unfold clean_text.
  pose proof H as H'. unfold tidy in H'. apply andb_true_iff in H' as [H1 _].
  rewrite (spaced_sub_ws_id _ _ (spaced_weaken _ H1)).
  apply tidy_strip_id, H.
Qed.

Lemma normalized_tidy t : normalized t <-> tidy t = true.
Proof.
  split.
  - intros H. rewrite <- H. apply tidy_clean_text.
  - apply tidy_clean_text_id.
Qed.

(** C6: [clean_text] is idempotent: cleaning a cleaned text returns it
    unchanged. *)
Theorem clean_text_idempotent (s : str) :
  clean_text (clean_text s) = clean_text s.
Proof. apply tidy_clean_text_id, tidy_clean_text. Qed.

Lemma spaced_In s : forall q c,
  spaced q s = true -> In c s -> isspace c = true -> c = SPACE.
Proof.
  induction s as [|x r IH]; intros q c H Hin Hc; simpl in *; [contradiction|].
  destruct Hin as [->|Hin].
  - rewrite Hc in H. apply andb_true_iff in H as [H _].
    apply andb_true_iff in H as [H _]. apply N.eqb_eq, H.
  - destruct (isspace x).
    + apply andb_true_iff in H as [_ H]. eapply IH; eassumption.
    + eapply IH; eassumption.
Qed.

Lemma spaced_no_pair a : forall q c d b,
  spaced q (a ++ c :: d :: b) = true ->
  isspace c = true -> isspace d = true -> False.
Proof.
  induction a as [|x r IH]; intros q c d b H Hc Hd; simpl in H.
  - rewrite Hc, Hd in H. simpl in H.
    rewrite andb_false_r, andb_false_l, andb_false_r in H. discriminate.
  - destruct (isspace x).
    + apply andb_true_iff in H as [_ H]. eapply IH; eassumption.
    + eapply IH; eassumption.
Qed.

Lemma ends_tight_app r : forall c, ends_tight (r ++ [c]) = negb (isspace c).
Proof.
  induction r as [|x y IH]; intros c; [reflexivity|].
  simpl. destruct (y ++ [c]) eqn:E.
  - destruct y; discriminate.
  - rewrite <- E. apply IH.
Qed.

(** C9: the result of [clean_text] contains no newline; its only whitespace
    characters are spaces, no two whitespace characters are adjacent, and it
    neither starts nor ends with a whitespace character. *)
Theorem clean_text_no_newline (s : str) :
  ~ In NEWLINE (clean_text s)
  /\ (forall c, In c (clean_text s) -> isspace c = true -> c = SPACE)
  /\ (forall a c d b, clean_text s = a ++ c :: d :: b ->
        ~ (isspace c = true /\ isspace d = true))
  /\ (forall c r, clean_text s = c :: r -> isspace c = false)
  /\ (forall r c, clean_text s = r ++ [c] -> isspace c = false).
Proof.
  pose proof (tidy_clean_text s) as H. unfold tidy in H.
  apply andb_true_iff in H as [Hs He].
  assert (Hin : forall c, In c (clean_text s) -> isspace c = true -> c = SPACE)
    by (intros c; apply (spaced_In _ _ _ Hs)).
  split; [|split; [exact Hin|split; [|split]]].
  - intros Hn. specialize (Hin _ Hn eq_refl). discriminate.
  - intros a c d b E [Hc Hd]. rewrite E in Hs.
    exact (spaced_no_pair _ _ _ _ _ Hs Hc Hd).
  - intros c r E. rewrite E in Hs. simpl in Hs.
    destruct (isspace c); [|reflexivity].
    rewrite andb_false_r in Hs. discriminate.
  - intros r c E. rewrite E, ends_tight_app in He.
    apply negb_true_iff, He.
Qed.

(** ** Sentences of a normalized text *)

Lemma is_stop_not_space c : is_stop c = true -> isspace c = false.
Proof.
  unfold is_stop. intros H.
  apply orb_true_iff in H as [H|H]; [apply orb_true_iff in H as [H|H]|];
    apply N.eqb_eq in H; subst c; reflexivity.
Qed.

Lemma ends_tight_app_cons p : forall c r,
  ends_tight (p ++ c :: r) = ends_tight (c :: r).
Proof.
  induction p as [|x y IH]; intros c r; [reflexivity|].
  change ((x :: y) ++ c :: r) with (x :: (y ++ c :: r)).
  cbn [ends_tight]. destruct (y ++ c :: r) eqn:E.
  - destruct y; discriminate.
  - rewrite <- E. apply IH.
Qed.

Lemma ends_stop_app p : forall c, ends_stop (p ++ [c]) = is_stop c.
Proof.
  induction p as [|x y IH]; intros c; [reflexivity|].
  change ((x :: y) ++ [c]) with (x :: (y ++ [c])).
  cbn [ends_stop]. destruct (y ++ [c]) eqn:E.
  - destruct y; discriminate.
  - rewrite <- E. apply IH.
Qed.

Lemma spaced_app_space p : forall q c r,
  spaced q (p ++ c :: r) = true -> isspace c = true ->
  spaced q p = true /\ ends_tight p = true /\ spaced true r = true
  /\ c = SPACE /\ (p = [] -> q = false).
Proof.
  induction p as [|x y IH]; intros q c r H Hc.
  - simpl in H. rewrite Hc in H.
    apply andb_true_iff in H as [H1 H2].
    apply andb_true_iff in H1 as [H0 H1].
    apply N.eqb_eq in H0. apply negb_true_iff in H1. auto.
  - change ((x :: y) ++ c :: r) with (x :: (y ++ c :: r)) in H.
    cbn [spaced] in H |- *.
    destruct (isspace x) eqn:Hx.
    + apply andb_true_iff in H as [H1 H2].
      destruct (IH _ _ _ H2 Hc) as (A & B & C & D & E).
      rewrite H1, A. repeat split; try assumption; try discriminate.
      destruct y as [|y0 y1]; [specialize (E eq_refl); discriminate|].
      exact B.
    + destruct (IH _ _ _ H Hc) as (A & B & C & D & E).
      repeat split; try assumption; try discriminate.
      cbn [ends_tight]. destruct y; [rewrite Hx; reflexivity|exact B].
Qed.

Lemma tidy_app_space p c r :
  tidy (p ++ c :: r) = true -> isspace c = true ->
  piece p /\ piece r /\ c = SPACE.
Proof.
  unfold piece, tidy. intros H Hc.
  apply andb_true_iff in H as [H1 H2].
  destruct (spaced_app_space _ _ _ _ H1 Hc) as (A & B & C & D & E).
  rewrite ends_tight_app_cons in H2. cbn [ends_tight] in H2.
  destruct r as [|r0 r1]; [rewrite Hc in H2; discriminate|].
  rewrite A, B, C, H2. repeat split; try assumption; try discriminate.
  intros ->. specialize (E eq_refl). discriminate.
Qed.

Lemma re_split_nonempty s : forall st, re_split st s <> [].
Proof.
  induction s as [|c r IH]; intros st; simpl; [discriminate|].
  destruct (isspace c).
  - destruct st; [|discriminate|apply IH].
    specialize (IH Plain). destruct (re_split Plain r); [contradiction|discriminate].
  - match goal with |- cons_head _ (re_split ?s _) <> _ => specialize (IH s);
      destruct (re_split s r); [contradiction|discriminate] end.
Qed.

Lemma prepend_cons_head p c l :
  l <> [] -> prepend p (cons_head c l) = prepend (p ++ [c]) l.
Proof.
  destruct l as [|h rest]; [contradiction|]. intros _. simpl.
  rewrite <- app_assoc. reflexivity.
Qed.

Lemma re_split_good t : forall p st,
  tidy (p ++ t) = true -> p ++ t <> [] -> consistent st p ->
  good (prepend p (re_split st t))
  /\ joinsp (prepend p (re_split st t)) = SPACE :: p ++ t.
Proof.
  induction t as [|c r IH]; intros p st Ht Hne Hst.
  - simpl. unfold piece. rewrite !app_nil_r in *. auto.
  - cbn [re_split]. destruct (isspace c) eqn:Hc.
    + destruct (tidy_app_space _ _ _ Ht Hc) as (Hp & Hr & ->).
      destruct st; simpl in Hst.
      * rewrite prepend_cons_head by apply re_split_nonempty.
        replace (p ++ SPACE :: r) with ((p ++ [SPACE]) ++ r) in *
          by (rewrite <- app_assoc; reflexivity).
        apply IH; [assumption|assumption|exact I].
      * destruct (IH [] InGap) as [G J]; try reflexivity; try apply Hr.
        pose proof (re_split_nonempty r InGap) as Hn.
        destruct (re_split InGap r) as [|h rest] eqn:E; [contradiction|].
        simpl in G, J. simpl. rewrite app_nil_r.
        split; [auto|].
        unfold joinsp in *. simpl in *. rewrite J.
        reflexivity.
      * subst p. destruct Hp as [_ Hp]. contradiction.
    + rewrite prepend_cons_head by apply re_split_nonempty.
      replace (p ++ c :: r) with ((p ++ [c]) ++ r) in *
        by (rewrite <- app_assoc; reflexivity).
      apply IH; [assumption|assumption|].
      destruct (is_stop c) eqn:Hs; simpl; [|exact I].
      rewrite ends_stop_app. exact Hs.
Qed.

Lemma split_sentences_good t :
  tidy t = true -> t <> [] ->
  good (split_sentences t) /\ joinsp (split_sentences t) = SPACE :: t.
Proof.
  intros Ht Hne. unfold split_sentences.
  destruct (re_split_good t [] Plain Ht Hne I) as [G J].
  pose proof (re_split_nonempty t Plain) as Hn.
  destruct (re_split Plain t) as [|h rest]; [contradiction|].
  simpl in G, J. auto.
Qed.

(** ** Pieces and their concatenation *)

Lemma spaced_join a : forall q b,
  spaced q a = true -> ends_tight a = true -> a <> [] ->
  spaced true b = true -> spaced q (a ++ SPACE :: b) = true.
Proof.
  induction a as [|x y IH]; intros q b Ha He Hne Hb; [contradiction|].
  change ((x :: y) ++ SPACE :: b) with (x :: (y ++ SPACE :: b)).
  cbn [spaced ends_tight] in *.
  destruct y as [|y0 y1].
  - apply negb_true_iff in He. rewrite He. simpl. exact Hb.
  - destruct (isspace x).
    + apply andb_true_iff in Ha as [H1 H2]. rewrite H1.
      apply IH; [assumption|assumption|discriminate|assumption].
    + apply IH; [assumption|assumption|discriminate|assumption].
Qed.

Lemma piece_append a b : piece a -> piece b -> piece (a ++ SPACE :: b).
Proof.
  unfold piece, tidy. intros [Ha Hna] [Hb Hnb].
  apply andb_true_iff in Ha as [Ha1 Ha2].
  apply andb_true_iff in Hb as [Hb1 Hb2].
  split; [|destruct a; discriminate].
  apply andb_true_iff. split.
  - apply spaced_join; assumption.
  - rewrite ends_tight_app_cons. cbn [ends_tight].
    destruct b; [contradiction|assumption].
Qed.

Lemma ends_stop_app_cons p : forall c r,
  ends_stop (p ++ c :: r) = ends_stop (c :: r).
Proof.
  induction p as [|x y IH]; intros c r; [reflexivity|].
  change ((x :: y) ++ c :: r) with (x :: (y ++ c :: r)).
  cbn [ends_stop]. destruct (y ++ c :: r) eqn:E.
  - destruct y; discriminate.
  - rewrite <- E. apply IH.
Qed.

Lemma closed_append a b : piece a -> closed b -> closed (a ++ SPACE :: b).
Proof.
  intros Ha [Hb Hs]. split; [apply piece_append; assumption|].
  rewrite ends_stop_app_cons. cbn [ends_stop].
  destruct b; [destruct Hb; contradiction|assumption].
Qed.

Lemma piece_strip x : piece x -> strip x = x.
Proof. intros [H _]. apply tidy_strip_id, H. Qed.

Lemma good_snoc init : forall lst,
  Forall closed init -> piece lst -> good (init ++ [lst]).
Proof.
  induction init as [|x r IH]; intros lst Hi Hl; simpl; [auto|].
  inversion Hi as [|? ? [Hx Hs] Hr]; subst.
  split; [assumption|].
  specialize (IH lst Hr Hl).
  destruct (r ++ [lst]) eqn:E; [destruct r; discriminate|].
  auto.
Qed.

Lemma good_inv l :
  good l -> exists init lst,
    l = init ++ [lst] /\ Forall closed init /\ piece lst.
Proof.
  induction l as [|x r IH]; intros H; simpl in H; [contradiction|].
  destruct H as [Hx H]. destruct r as [|y r'].
  - exists [], x. auto.
  - destruct H as [Hs H]. destruct (IH H) as (init & lst & E & Hi & Hl).
    exists (x :: init), lst. rewrite E.
    split; [reflexivity|]. split; [|assumption].
    constructor; [split; assumption|assumption].
Qed.

Lemma good_pieces l : good l -> Forall piece l.
Proof.
  intros H. destruct (good_inv _ H) as (init & lst & -> & Hi & Hl).
  apply Forall_app. split; [|auto].
  eapply Forall_impl; [|exact Hi]. intros a [Ha _]. exact Ha.
Qed.

Lemma joinsp_app a b : joinsp (a ++ b) = joinsp a ++ joinsp b.
Proof. unfold joinsp. apply flat_map_app. Qed.

Lemma join_joinsp l : join l = tl (joinsp l).
Proof.
  induction l as [|x r IH]; [reflexivity|].
  destruct r as [|y r']; [simpl; rewrite app_nil_r; reflexivity|].
  change (join (x :: y :: r')) with (x ++ SPACE :: join (y :: r')).
  rewrite IH. reflexivity.
Qed.

(** ** The accumulation loop *)

Section Loop.

(** The target size, [chars_per_section]; any integer. *)
Variable T : Z.

Lemma step_cases (secs : list str) (cur s : str) :
  let pl := potential_length cur s in
  (step T (secs, cur) s = (secs, append_sentence cur s)
   /\ (cur = [] \/ (pl <= T)%Z))
  \/ (cur <> [] /\ (T < pl)%Z /\ (pl <= max_chars)%Z
      /\ step T (secs, cur) s = (secs ++ [strip (cur ++ SPACE :: s)], []))
  \/ (cur <> [] /\ (T < pl)%Z /\ (max_chars < pl)%Z
      /\ step T (secs, cur) s = (secs ++ [strip cur], s)).
Proof.
  intros pl. unfold step. fold pl.
  destruct cur as [|c0 c1].
  - left. cbn [truthy]. rewrite andb_false_r. auto.
  - cbn [truthy]. rewrite andb_true_r.
    destruct (pl >? T)%Z eqn:E1.
    + apply Z.gtb_lt in E1. right.
      destruct (pl <=? max_chars)%Z eqn:E2.
      * apply Z.leb_le in E2. left.
        repeat split; [discriminate|assumption|assumption].
      * apply Z.leb_gt in E2. right.
        repeat split; [discriminate|assumption|assumption].
    + left. split; [reflexivity|]. right.
      rewrite Z.gtb_ltb in E1. apply Z.ltb_ge in E1. exact E1.
Qed.

Lemma view_cons (secs : list str) c0 c1 :
  view (secs, c0 :: c1) = secs ++ [c0 :: c1].
Proof. reflexivity. Qed.

Lemma view_nil (secs : list str) : view (secs, []) = secs.
Proof. unfold view. simpl. apply app_nil_r. Qed.

Lemma view_piece (secs : list str) (x : str) : piece x -> view (secs, x) = secs ++ [x].
Proof. intros [_ H]. destruct x; [contradiction|reflexivity]. Qed.

Lemma joinsp_merge l a b :
  joinsp (l ++ [a ++ SPACE :: b]) = joinsp (l ++ [a]) ++ joinsp [b].
Proof.
  rewrite !joinsp_app. unfold joinsp. simpl.
  rewrite !app_nil_r, <- !app_assoc. reflexivity.
Qed.

(** A step on a sentence that is not the last one. *)
Lemma step_closed (secs : list str) (cur s : str) :
  closed s -> Forall closed secs -> cur = [] \/ closed cur ->
  let st' := step T (secs, cur) s in
  Forall closed (fst st') /\ (snd st' = [] \/ closed (snd st'))
  /\ joinsp (view st') = joinsp (view (secs, cur)) ++ joinsp [s].
Proof.
  intros Hs Hsecs Hcur.
  destruct (step_cases secs cur s)
    as [[E _]|[(Hne & _ & _ & E)|(Hne & _ & _ & E)]];
    cbv zeta; rewrite E; clear E; cbn [fst snd].
  - split; [assumption|].
    destruct cur as [|c0 c1]; cbn [append_sentence truthy].
    + split; [auto|].
      rewrite view_nil, (view_piece _ _ (proj1 Hs)). apply joinsp_app.
    + destruct Hcur as [Hcur|Hcur]; [discriminate|].
      pose proof (closed_append _ _ (proj1 Hcur) Hs) as Hcs.
      split; [auto|].
      rewrite (view_piece _ _ (proj1 Hcs)), view_cons. apply joinsp_merge.
  - destruct Hcur as [Hcur|Hcur]; [contradiction|].
    pose proof (closed_append _ _ (proj1 Hcur) Hs) as Hcs.
    rewrite (piece_strip _ (proj1 Hcs)).
    split; [apply Forall_app; auto|]. split; [auto|].
    rewrite view_nil, (view_piece _ _ (proj1 Hcur)). apply joinsp_merge.
  - destruct Hcur as [Hcur|Hcur]; [contradiction|].
    rewrite (piece_strip _ (proj1 Hcur)).
    split; [apply Forall_app; auto|]. split; [auto|].
    rewrite (view_piece _ _ (proj1 Hs)), (view_piece _ _ (proj1 Hcur)).
    apply joinsp_app.
Qed.

Lemma loop_closed init : forall (secs : list str) (cur : str),
  Forall closed init -> Forall closed secs -> cur = [] \/ closed cur ->
  let st' := fold_left (step T) init (secs, cur) in
  Forall closed (fst st') /\ (snd st' = [] \/ closed (snd st'))
  /\ joinsp (view st') = joinsp (view (secs, cur)) ++ joinsp init.
Proof.
  induction init as [|s r IH]; intros secs cur Hi Hsecs Hcur.
  - simpl. split; [assumption|]. split; [assumption|].
    rewrite app_nil_r. reflexivity.
  - inversion Hi as [|? ? Hs Hr]; subst.
    destruct (step_closed _ _ s Hs Hsecs Hcur) as (A & B & C).
    cbn [fold_left].
    destruct (step T (secs, cur) s) as [secs1 cur1].
    destruct (IH secs1 cur1 Hr A B) as (A' & B' & C').
    split; [assumption|]. split; [assumption|].
    cbv zeta in C'. rewrite C', C.
    change (s :: r) with ([s] ++ r). rewrite joinsp_app, app_assoc.
    reflexivity.
Qed.

(** The step on the last sentence, followed by the final emission. *)
Lemma finish_piece (secs : list str) (x : str) : piece x -> finish (secs, x) = secs ++ [x].
Proof.
  intros H. unfold finish. cbn [fst snd]. rewrite (piece_strip _ H).
  destruct x; [destruct H; contradiction|reflexivity].
Qed.

Lemma step_last (secs : list str) (cur s : str) :
  piece s -> Forall closed secs -> cur = [] \/ closed cur ->
  let st' := step T (secs, cur) s in
  good (finish st') /\ finish st' = view st'
  /\ joinsp (view st') = joinsp (view (secs, cur)) ++ joinsp [s].
Proof.
  intros Hs Hsecs Hcur.
  destruct (step_cases secs cur s)
    as [[E _]|[(Hne & _ & _ & E)|(Hne & _ & _ & E)]];
    cbv zeta; rewrite E; clear E.
  - destruct cur as [|c0 c1]; cbn [append_sentence truthy].
    + rewrite view_nil, (view_piece _ _ Hs), (finish_piece _ _ Hs).
      split; [apply good_snoc; assumption|]. split; [reflexivity|].
      apply joinsp_app.
    + destruct Hcur as [Hcur|Hcur]; [discriminate|].
      pose proof (piece_append _ _ (proj1 Hcur) Hs) as Hcs.
      rewrite (view_piece _ _ Hcs), (finish_piece _ _ Hcs), view_cons.
      split; [apply good_snoc; assumption|]. split; [reflexivity|].
      apply joinsp_merge.
  - destruct Hcur as [Hcur|Hcur]; [contradiction|].
    pose proof (piece_append _ _ (proj1 Hcur) Hs) as Hcs.
    rewrite (piece_strip _ Hcs), view_nil, (view_piece _ _ (proj1 Hcur)).
    unfold finish. cbn [fst snd truthy].
    split; [apply good_snoc; assumption|]. split; [reflexivity|].
    apply joinsp_merge.
  - destruct Hcur as [Hcur|Hcur]; [contradiction|].
    rewrite (piece_strip _ (proj1 Hcur)), (view_piece _ _ Hs),
      (finish_piece _ _ Hs), (view_piece _ _ (proj1 Hcur)).
    split; [|split; [reflexivity|]].
    + apply good_snoc; [apply Forall_app; auto|assumption].
    + apply joinsp_app.
Qed.

Lemma split_text_into_sections_finish text :
  split_text_into_sections text T
  = finish (fold_left (step T) (split_sentences text)
              (@pair (list str) str [] [])).
Proof.
  unfold split_text_into_sections, finish.
  change (@pair (list str) (list char) [] []) with (@pair (list str) str [] []).
  destruct (fold_left (step T) (split_sentences text) (@pair (list str) str [] [])).
  reflexivity.
Qed.

Lemma fold_left_snoc {A B} (f : A -> B -> A) l x a :
  fold_left f (l ++ [x]) a = f (fold_left f l a) x.
Proof. rewrite fold_left_app. reflexivity. Qed.

(** The chunks of a good list of sentences. *)
Lemma chunks_good ss :
  good ss ->
  good (finish (fold_left (step T) ss (@pair (list str) str [] [])))
  /\ joinsp (finish (fold_left (step T) ss (@pair (list str) str [] [])))
     = joinsp ss.
Proof.
  intros H. destruct (good_inv _ H) as (init & lst & -> & Hi & Hl).
  rewrite fold_left_snoc.
  destruct (loop_closed init [] [] Hi (Forall_nil _) (or_introl eq_refl))
    as (A & B & C).
  remember (fold_left (step T) init (@pair (list str) str [] [])) as st eqn:Est.
  destruct st as [secs cur]. cbn [fst snd] in A, B.
  destruct (step_last _ _ lst Hl A B) as (G & F & J).
  split; [exact G|].
  rewrite F, J, C, joinsp_app. reflexivity.
Qed.

End Loop.

(** ** Re-splitting a concatenation *)

Lemma cons_head_app c (A B : list str) :
  A <> [] -> cons_head c (A ++ B) = cons_head c A ++ B.
Proof. destruct A; [contradiction|reflexivity]. Qed.

Lemma re_split_join a : forall st c b,
  ends_stop a = true -> isspace c = false ->
  re_split st (a ++ SPACE :: c :: b)
  = re_split st a ++ re_split Plain (c :: b).
Proof.
  induction a as [|x y IH]; intros st c b Ha Hc; [discriminate|].
  destruct y as [|y0 y1].
  - cbn [ends_stop] in Ha.
    change ([x] ++ SPACE :: c :: b) with (x :: SPACE :: c :: b).
    cbn [re_split]. rewrite (is_stop_not_space _ Ha), Ha, isspace_SPACE, Hc.
    reflexivity.
  - change ((x :: y0 :: y1) ++ SPACE :: c :: b)
      with (x :: ((y0 :: y1) ++ SPACE :: c :: b)).
    cbn [ends_stop] in Ha.
    cbn [re_split].
    destruct (isspace x); [destruct st|];
      rewrite IH by assumption;
      try rewrite cons_head_app by apply re_split_nonempty; reflexivity.
Qed.

Lemma piece_head y : piece y -> exists c y', y = c :: y' /\ isspace c = false.
Proof.
  intros [H Hne]. destruct y as [|c y']; [contradiction|].
  exists c, y'. split; [reflexivity|].
  unfold tidy in H. apply andb_true_iff in H as [H _]. simpl in H.
  destruct (isspace c); [|reflexivity].
  rewrite andb_false_r in H. discriminate.
Qed.

Lemma resplit_good l :
  good l -> flat_map split_sentences l = split_sentences (join l).
Proof.
  induction l as [|x r IH]; intros H; [contradiction|].
  destruct r as [|y r'].
  - simpl. apply app_nil_r.
  - destruct H as (Hx & Hs & Hr).
    change (flat_map split_sentences (x :: y :: r'))
      with (split_sentences x ++ flat_map split_sentences (y :: r')).
    rewrite (IH Hr).
    change (join (x :: y :: r')) with (x ++ SPACE :: join (y :: r')).
    assert (Hj : exists c b, join (y :: r') = c :: b /\ isspace c = false).
    { destruct Hr as [Hy _].
      destruct (piece_head _ Hy) as (c & y' & -> & Hc).
      destruct r'; simpl; eauto. }
    destruct Hj as (c & b & -> & Hc).
    unfold split_sentences. symmetry. apply re_split_join; assumption.
Qed.

(** ** Chunks of a normalized text *)

Lemma chunks_normalized t T :
  normalized t -> t <> [] ->
  good (split_text_into_sections t T)
  /\ join (split_text_into_sections t T) = t.
Proof.
  intros Hn Hne. apply normalized_tidy in Hn.
  destruct (split_sentences_good t Hn Hne) as [G J].
  destruct (chunks_good T _ G) as [G' J'].
  rewrite split_text_into_sections_finish.
  split; [assumption|].
  rewrite join_joinsp, J', J. reflexivity.
Qed.

Lemma split_empty T : split_text_into_sections [] T = [].
Proof.
  unfold split_text_into_sections, split_sentences, step. simpl.
  rewrite andb_false_r. reflexivity.
Qed.

Lemma resplit_chunks_nonempty (t : str) (T : Z) :
  normalized t -> t <> [] ->
  flat_map split_sentences (split_text_into_sections t T)
  = split_sentences t.
Proof.
  intros Hn Hne. destruct (chunks_normalized t T Hn Hne) as [G J].
  rewrite (resplit_good _ G), J. reflexivity.
Qed.

Lemma sentences_pieces l :
  Forall piece l -> flat_map sentences l = flat_map split_sentences l.
Proof.
  induction l as [|x r IH]; intros H; [reflexivity|].
  inversion H as [|? ? [_ Hx] Hr]; subst.
  cbn [flat_map]. rewrite (IH Hr).
  destruct x; [contradiction|reflexivity].
Qed.

(** C1: for every normalized text and every target size, re-splitting each
    chunk on the sentence rule and concatenating the results in chunk order
    gives exactly the sentences of the whole text (the empty text has no
    sentence and no chunk): no sentence is lost, duplicated or reordered.
    The chunks, none of which is empty, are re-split as texts and as the
    pieces of [re.split] alike. *)
Theorem resplit_chunks_sentences (t : str) (T : Z) :
  normalized t ->
  flat_map sentences (split_text_into_sections t T) = sentences t
  /\ flat_map split_sentences (split_text_into_sections t T) = sentences t.
Proof.
  intros Hn. destruct t as [|t0 t1].
  - rewrite split_empty. split; reflexivity.
  - assert (Hne : t0 :: t1 <> []) by discriminate.
    destruct (chunks_normalized (t0 :: t1) T Hn Hne) as [G _].
    rewrite (sentences_pieces _ (good_pieces _ G)).
    cbn [sentences].
    split; apply resplit_chunks_nonempty; assumption.
Qed.

Lemma resplit_chunks_sentences_witness :
  normalized (lit "A. B! C d? E")
  /\ split_text_into_sections (lit "A. B! C d? E") 5
     = [lit "A. B! C d?"; lit "E"]
  /\ flat_map sentences (split_text_into_sections (lit "A. B! C d? E") 5)
     = [lit "A."; lit "B!"; lit "C d?"; lit "E"]
  /\ flat_map sentences (split_text_into_sections (lit "A. B! C d? E") 5)
     = sentences (lit "A. B! C d? E").
Proof.
  split; [reflexivity|]. split; [reflexivity|]. split; [reflexivity|].
  apply (resplit_chunks_sentences (lit "A. B! C d? E") 5). reflexivity.
Defined.

(** C10: joining the chunks of a normalized text with single spaces gives
    the text back, for every target size. *)
Theorem join_chunks_roundtrip (t : str) (T : Z) :
  normalized t -> t <> [] ->
  join (split_text_into_sections t T) = t.
Proof. intros Hn Hne. apply (chunks_normalized t T Hn Hne). Qed.

Lemma join_chunks_roundtrip_witness :
  normalized (lit "One two. Three! Four five six? Seven")
  /\ lit "One two. Three! Four five six? Seven" <> []
  /\ join (split_text_into_sections
             (lit "One two. Three! Four five six? Seven") 10)
     = lit "One two. Three! Four five six? Seven".
Proof.
  split; [reflexivity|]. split; [discriminate|].
  apply (join_chunks_roundtrip
           (lit "One two. Three! Four five six? Seven") 10);
    [reflexivity|discriminate].
Defined.

(** C5: the empty text gives no chunk, and no chunk of a non-empty
    normalized text is empty. *)
Theorem chunks_nonempty (t : str) (T : Z) :
  split_text_into_sections [] T = []
  /\ (normalized t -> t <> [] ->
      forall c, In c (split_text_into_sections t T) -> (0 < len c)%Z).
Proof.
  split; [apply split_empty|].
  intros Hn Hne c Hc.
  destruct (chunks_normalized t T Hn Hne) as [G _].
  pose proof (good_pieces _ G) as Hp.
  rewrite Forall_forall in Hp. destruct (Hp c Hc) as [_ Hc'].
  destruct c; [contradiction|]. unfold len. simpl length. lia.
Qed.

Lemma chunks_nonempty_witness :
  split_text_into_sections [] 5 = []
  /\ forall c, In c (split_text_into_sections (lit "A. B. C.") 5) ->
       (0 < len c)%Z.
Proof.
  destruct (chunks_nonempty (lit "A. B. C.") 5) as [H0 H1].
  split; [exact H0|]. apply H1; [reflexivity|discriminate].
Defined.

(** ** Chunk sizes *)

Lemma len_app a b : len (a ++ b) = (len a + len b)%Z.
Proof. unfold len. rewrite length_app. lia. Qed.

Lemma len_cons c a : len (c :: a) = (len a + 1)%Z.
Proof. unfold len. simpl length. lia. Qed.

Lemma len_nonneg a : (0 <= len a)%Z.
Proof. unfold len. lia. Qed.

Lemma len_append_sentence cur s :
  len (append_sentence cur s) = potential_length cur s.
Proof.
  unfold append_sentence, potential_length.
  destruct cur as [|c0 c1]; cbn [truthy].
  - unfold len at 2. simpl. lia.
  - rewrite len_app, !len_cons. lia.
Qed.

Lemma len_lstrip s : (len (lstrip s) <= len s)%Z.
Proof.
  induction s as [|c r IH]; cbn [lstrip]; [lia|].
  destruct (isspace c); [rewrite len_cons; lia|lia].
Qed.

Lemma len_rstrip s : (len (rstrip s) <= len s)%Z.
Proof.
  induction s as [|c r IH]; [simpl; lia|].
  rewrite rstrip_cons.
  destruct (isspace c && negb (truthy (rstrip r))).
  - pose proof (len_nonneg (c :: r)). unfold len at 1. simpl. lia.
  - rewrite !len_cons. lia.
Qed.

Lemma len_strip s : (len (strip s) <= len s)%Z.
Proof.
  unfold strip. pose proof (len_rstrip (lstrip s)). pose proof (len_lstrip s).
  lia.
Qed.

Section Sizes.

(** A target size not above the hard cap, and the sentences of the text. *)
Variable T : Z.
Variable ss0 : list str.
Hypothesis T_le_cap : (T <= max_chars)%Z.

(** What the loop maintains about the buffer. *)
Let buffer_ok (cur : str) : Prop := (len cur <= max_chars)%Z \/ In cur ss0.

Lemma emit_within (secs : list str) (cur : str) :
  Forall (within ss0) secs -> buffer_ok cur ->
  Forall (within ss0) (secs ++ [strip cur]).
Proof.
  intros Hsecs Hcur. apply Forall_app. split; [assumption|].
  constructor; [|constructor].
  destruct Hcur as [Hcur|Hcur].
  - left. pose proof (len_strip cur). lia.
  - right. exists cur. auto.
Qed.

Lemma step_size (secs : list str) (cur s : str) :
  In s ss0 -> Forall (within ss0) secs -> buffer_ok cur ->
  let st' := step T (secs, cur) s in
  Forall (within ss0) (fst st') /\ buffer_ok (snd st').
Proof.
  intros Hs Hsecs Hcur.
  destruct (step_cases T secs cur s)
    as [[E C]|[(Hne & Hlo & Hhi & E)|(Hne & Hlo & Hhi & E)]];
    cbv zeta in *; rewrite E; clear E; cbn [fst snd].
  - split; [assumption|].
    destruct C as [->|C]; [right; exact Hs|].
    left. rewrite len_append_sentence. lia.
  - split; [|left; unfold max_chars, len; simpl; lia].
    apply emit_within; [assumption|]. left.
    pose proof (len_append_sentence cur s) as Ha.
    unfold append_sentence in Ha.
    destruct cur; [contradiction|]. cbn [truthy] in Ha. lia.
  - split; [|right; exact Hs]. apply emit_within; assumption.
Qed.

Lemma loop_size ss : forall (secs : list str) (cur : str),
  incl ss ss0 -> Forall (within ss0) secs -> buffer_ok cur ->
  Forall (within ss0) (finish (fold_left (step T) ss (secs, cur))).
Proof.
  induction ss as [|s r IH]; intros secs cur Hin Hsecs Hcur.
  - unfold finish. cbn [fold_left fst snd].
    destruct (truthy cur); [|assumption].
    apply emit_within; assumption.
  - cbn [fold_left].
    assert (Hs : In s ss0) by (apply Hin; left; reflexivity).
    destruct (step_size secs cur s Hs Hsecs Hcur) as [A B].
    destruct (step T (secs, cur) s) as [secs1 cur1].
    apply IH; try assumption.
    intros x Hx. apply Hin. right. exact Hx.
Qed.

End Sizes.

(** Every chunk is within the hard cap or is a single sentence on its own,
    for every text and every target size up to the hard cap. *)
Lemma chunks_within text T :
  (T <= max_chars)%Z ->
  Forall (within (split_sentences text)) (split_text_into_sections text T).
Proof.
  intros HT. rewrite split_text_into_sections_finish.
  apply loop_size; [assumption|apply incl_refl|constructor|].
  left. unfold len, max_chars. simpl. lia.
Qed.

(** A sentence longer than the hard cap that is in a chunk list, in the
    buffer or still to come ends up as a chunk of its own. *)
Lemma loop_oversized T (s : str) ss : forall (secs : list str) (cur : str),
  (T <= max_chars)%Z -> piece s -> (max_chars < len s)%Z ->
  In s secs \/ s = cur \/ In s ss ->
  In s (finish (fold_left (step T) ss (secs, cur))).
Proof.
  induction ss as [|x r IH]; intros secs cur HT Hp Hs H.
  - cbn [fold_left]. destruct H as [H|[Heq|H]]; [| |contradiction].
    + unfold finish. cbn [fst snd].
      destruct (truthy cur); [apply in_or_app; left|]; exact H.
    + rewrite <- Heq, (finish_piece _ _ Hp).
      apply in_or_app. right. left. reflexivity.
  - cbn [fold_left]. pose proof (len_nonneg cur) as Hc0.
    pose proof (len_nonneg x) as Hx0.
    assert (Hcur : s = cur -> truthy cur = true /\ len cur = len s).
    { intros <-. split; [|reflexivity].
      destruct s; [destruct Hp; contradiction|reflexivity]. }
    assert (Hxs : s = x -> len x = len s) by (intros <-; reflexivity).
    destruct (step_cases T secs cur x)
      as [[E C]|[(Hne & Hlo & Hhi & E)|(Hne & Hlo & Hhi & E)]];
      cbv zeta in *; rewrite E; clear E; apply IH; try assumption;
      unfold potential_length in *.
    + destruct H as [H|[Heq|[Heq|H]]];
        [left; exact H| | |right; right; exact H].
      * exfalso. destruct (Hcur Heq) as [Ht Hl]. rewrite Ht in C.
        destruct C as [C|C]; [rewrite C in Ht; discriminate Ht|lia].
      * right. left. specialize (Hxs (eq_sym Heq)).
        destruct cur as [|c0 c1]; [symmetry; exact Heq|].
        exfalso. cbn [truthy] in C. destruct C as [C|C]; [discriminate|lia].
    + destruct H as [H|[Heq|[Heq|H]]];
        [left; apply in_or_app; left; exact H| | |right; right; exact H];
        exfalso.
      * destruct (Hcur Heq) as [Ht Hl]. rewrite Ht in Hhi. lia.
      * specialize (Hxs (eq_sym Heq)). destruct (truthy cur); lia.
    + destruct H as [H|[Heq|[Heq|H]]];
        [left; apply in_or_app; left; exact H| |right; left; symmetry; exact Heq
        |right; right; exact H].
      left. rewrite <- Heq, (piece_strip _ Hp). apply in_or_app. right. left.
      reflexivity.
Qed.

(** C2: with the default target size 4090, every chunk of a normalized text
    has at most 4096 characters, or is one sentence of the text, longer than
    4096 characters, on its own; and every sentence of the text that is
    longer than 4096 characters is a chunk, alone and unsplit. *)
Theorem chunk_size_bound (t : str) :
  normalized t ->
  (forall c, In c (split_text_into_sections t default_chars_per_section) ->
     (len c <= 4096)%Z \/ (In c (split_sentences t) /\ (4096 < len c)%Z))
  /\ (forall s, In s (split_sentences t) -> (4096 < len s)%Z ->
        In s (split_text_into_sections t default_chars_per_section)).
Proof.
  intros Hn.
  assert (HT : (default_chars_per_section <= max_chars)%Z)
    by (unfold default_chars_per_section, max_chars; lia).
  assert (Hp : t <> [] -> Forall piece (split_sentences t)).
  { intros Hne. apply normalized_tidy in Hn.
    destruct (split_sentences_good t Hn Hne) as [G _].
    apply good_pieces, G. }
  split.
  - intros c Hc.
    pose proof (chunks_within t default_chars_per_section HT) as H.
    rewrite Forall_forall in H. specialize (H c Hc).
    destruct (Z_le_gt_dec (len c) 4096) as [Hle|Hgt]; [left; exact Hle|].
    right. split; [|lia].
    destruct H as [H|(s & Hs & ->)]; [unfold max_chars in H; lia|].
    destruct t as [|t0 t1]; [rewrite split_empty in Hc; contradiction|].
    assert (Hq : Forall piece (split_sentences (t0 :: t1)))
      by (apply Hp; discriminate).
    rewrite Forall_forall in Hq.
    rewrite (piece_strip _ (Hq s Hs)). exact Hs.
  - intros s Hs Hlen.
    destruct t as [|t0 t1].
    + cbn in Hs. destruct Hs as [<-|[]]. cbn in Hlen. lia.
    + assert (Hq : Forall piece (split_sentences (t0 :: t1)))
        by (apply Hp; discriminate).
      rewrite Forall_forall in Hq.
      rewrite split_text_into_sections_finish.
      apply loop_oversized; [exact HT|apply Hq, Hs|exact Hlen|].
      right. right. exact Hs.
Qed.

Lemma chunk_size_bound_witness :
  normalized oversized_text
  /\ In (repeat 97%N 4100 ++ lit ".") (split_sentences oversized_text)
  /\ (4096 < len (repeat 97%N 4100 ++ lit "."))%Z
  /\ In (repeat 97%N 4100 ++ lit ".")
       (split_text_into_sections oversized_text default_chars_per_section)
  /\ ((len (lit "B. C.") <= 4096)%Z
      \/ (In (lit "B. C.") (split_sentences oversized_text)
          /\ (4096 < len (lit "B. C."))%Z)).
Proof.
  assert (Hn : normalized oversized_text) by (vm_compute; reflexivity).
  assert (Hs : In (repeat 97%N 4100 ++ lit ".")
                 (split_sentences oversized_text))
    by (vm_compute; right; left; reflexivity).
  assert (Hl : (4096 < len (repeat 97%N 4100 ++ lit "."))%Z)
    by (vm_compute; reflexivity).
  destruct (chunk_size_bound oversized_text Hn) as [H1 H2].
  split; [exact Hn|]. split; [exact Hs|]. split; [exact Hl|].
  split; [apply H2; assumption|].
  apply H1. vm_compute. right. right. left. reflexivity.
Defined.

Example oversized_text_chunks :
  split_text_into_sections oversized_text default_chars_per_section
  = [lit "A."; repeat 97%N 4100 ++ lit "."; lit "B. C."].
Proof. vm_compute. reflexivity. Qed.

(** ** The hard cap *)

(** C3 (as amended): the hard cap is the constant 4096 for every target
    size [T]: a sentence whose prospective length exceeds [T] is appended to
    a non-empty buffer, closing the chunk, when that length is at most 4096,
    and otherwise the buffer is emitted without the sentence, which starts
    the next buffer.  The cap is [T + 6] only for [T = 4090]. *)
Theorem hard_cap_constant (T : Z) (sections : list str) (cur s : str) :
  cur <> [] -> (T < potential_length cur s)%Z ->
  ((potential_length cur s <= 4096)%Z ->
     step T (sections, cur) s
     = (sections ++ [strip (cur ++ SPACE :: s)], []))
  /\ ((4096 < potential_length cur s)%Z ->
       step T (sections, cur) s = (sections ++ [strip cur], s))
  /\ (max_chars = T + 6 <-> T = 4090)%Z.
Proof.
  intros Hne HT.
  destruct (step_cases T sections cur s)
    as [[_ [C|C]]|[(_ & _ & Hhi & E)|(_ & _ & Hhi & E)]];
    cbv zeta in *; unfold max_chars in *;
    try contradiction; try lia;
    (split; [intros H|split; [intros H|lia]]); try lia; exact E.
Qed.

Lemma hard_cap_constant_witness :
  lit "A." <> [] /\ (5 < potential_length (lit "A.") (lit "Hello world."))%Z
  /\ step 5 ([], lit "A.") (lit "Hello world.")
     = ([] ++ [strip (lit "A." ++ SPACE :: lit "Hello world.")], []).
Proof.
  split; [discriminate|]. split; [reflexivity|].
  apply (hard_cap_constant 5 [] (lit "A.") (lit "Hello world."));
    [discriminate|reflexivity|discriminate].
Defined.

(** C3 as stated fails: with [T = 5] a sentence whose prospective length 15
    exceeds [T + 6 = 11] is still appended to the non-empty buffer. *)
Lemma hard_cap_not_T_plus_6 :
  lit "A." <> []
  /\ potential_length (lit "A.") (lit "Hello world.") = 15%Z
  /\ ~ (potential_length (lit "A.") (lit "Hello world.") <= 5 + 6)%Z
  /\ step 5 ([], lit "A.") (lit "Hello world.")
     = ([lit "A. Hello world."], [])
  /\ step 5 ([], lit "A.") (lit "Hello world.")
     <> ([lit "A."], lit "Hello world.").
Proof.
  split; [discriminate|]. split; [reflexivity|].
  split; [intros H; apply H; reflexivity|].
  split; [reflexivity|discriminate].
Qed.

(** C4 (as amended): with target size 5 the text "A. B. C." gives the single
    chunk "A. B. C.": the prospective length 8 exceeds 5 and is within the
    hard cap 4096. *)
Theorem split_abc_target_5 :
  split_text_into_sections (lit "A. B. C.") 5 = [lit "A. B. C."].
Proof. reflexivity. Qed.

(** C4 as stated fails: the result is not the two chunks "A. B." and "C.". *)
Lemma split_abc_target_5_not_two_chunks :
  split_text_into_sections (lit "A. B. C.") 5 <> [lit "A. B."; lit "C."].
Proof. discriminate. Qed.

(** ** Numbered output files *)

Example save_two_sections :
  save_sections_to_files sound_disk [lit "A. B."; lit "C."]
    (lit "out") (lit "book")
  = ([ Makedirs (lit "out");
       WriteFile (lit "out") (lit "book_section_1.txt") (lit "A. B.");
       PrintLine (lit "Saved section 1/2: book_section_1.txt (5 characters)");
       WriteFile (lit "out") (lit "book_section_2.txt") (lit "C.");
       PrintLine (lit "Saved section 2/2: book_section_2.txt (2 characters)") ],
     None).
Proof. reflexivity. Qed.

Example save_second_file_refused :
  save_sections_to_files second_file_refused
    [lit "A. B."; lit "C."; lit "D."] (lit "out") (lit "book")
  = ([ Makedirs (lit "out");
       WriteFile (lit "out") (lit "book_section_1.txt") (lit "A. B.");
       PrintLine (lit "Saved section 1/3: book_section_1.txt (5 characters)");
       WriteRaises (lit "out") (lit "book_section_2.txt") (lit "C.")
         (lit "disk full") ],
     Some (lit "disk full")).
Proof. vm_compute. reflexivity. Qed.

Example str_of_nat_4096 : str_of_nat 4096 = lit "4096".
Proof. reflexivity. Qed.

Example zfill_sign : zfill 4 (lit "-7") = lit "-007".
Proof. reflexivity. Qed.

Example section_filename_padded :
  section_filename (lit "book") (len (str_of_nat 12)) 7
  = lit "book_section_07.txt".
Proof. reflexivity. Qed.

Lemma digits_of_fuel f1 : forall f2 n,
  n < f1 -> n < f2 -> digits_of f1 n = digits_of f2 n.
Proof.
  induction f1 as [|f1 IH]; intros f2 n H1 H2; [lia|].
  destruct f2 as [|f2]; [lia|].
  cbn [digits_of]. destruct (n <? 10) eqn:E; [reflexivity|].
  apply Nat.ltb_ge in E.
  assert (n / 10 < n) by (apply Nat.div_lt; lia).
  f_equal. apply IH; lia.
Qed.

Lemma str_of_nat_small n : n < 10 -> str_of_nat n = [digit n].
Proof.
  intros H. unfold str_of_nat. cbn [digits_of].
  apply Nat.ltb_lt in H. rewrite H. reflexivity.
Qed.

Lemma str_of_nat_big n :
  10 <= n -> str_of_nat n = str_of_nat (n / 10) ++ [digit (n mod 10)].
Proof.
  intros H. unfold str_of_nat at 1. cbn [digits_of].
  assert (E : (n <? 10) = false) by (apply Nat.ltb_ge; exact H).
  rewrite E. f_equal.
  assert (n / 10 < n) by (apply Nat.div_lt; lia).
  apply digits_of_fuel; lia.
Qed.

Lemma str_of_nat_cases n :
  (n < 10 /\ str_of_nat n = [digit n])
  \/ (10 <= n /\ n / 10 < n
      /\ str_of_nat n = str_of_nat (n / 10) ++ [digit (n mod 10)]).
Proof.
  destruct (Nat.lt_ge_cases n 10) as [H|H].
  - left. split; [exact H|apply str_of_nat_small, H].
  - right. split; [exact H|]. split; [apply Nat.div_lt; lia|].
    apply str_of_nat_big, H.
Qed.

Lemma length_str_of_nat_pos n : 1 <= length (str_of_nat n).
Proof.
  destruct (str_of_nat_cases n) as [[_ E]|(_ & _ & E)]; rewrite E.
  - simpl. lia.
  - rewrite length_app. simpl. lia.
Qed.

Lemma length_str_of_nat_mono n : forall i,
  i <= n -> length (str_of_nat i) <= length (str_of_nat n).
Proof.
  induction n as [n IH] using lt_wf_ind. intros i Hi.
  destruct (str_of_nat_cases n) as [[Hn En]|(Hn & Hd & En)].
  - rewrite En, (str_of_nat_small i) by lia. simpl. lia.
  - destruct (str_of_nat_cases i) as [[Hi' Ei]|(Hi' & _ & Ei)].
    + rewrite Ei. pose proof (length_str_of_nat_pos n). simpl. lia.
    + rewrite En, Ei, !length_app. cbn [length].
      assert (Hq : i / 10 <= n / 10) by (apply Nat.Div0.div_le_mono; exact Hi).
      specialize (IH (n / 10) Hd (i / 10) Hq). lia.
Qed.

Lemma is_digit_digit d : d < 10 -> is_digit (digit d) = true.
Proof.
  intros H. unfold is_digit, digit.
  apply andb_true_iff. split; apply N.leb_le; lia.
Qed.

Lemma str_of_nat_digits n : Forall (fun c => is_digit c = true) (str_of_nat n).
Proof.
  induction n as [n IH] using lt_wf_ind.
  destruct (str_of_nat_cases n) as [[Hn En]|(Hn & Hd & En)]; rewrite En.
  - constructor; [apply is_digit_digit, Hn|constructor].
  - apply Forall_app. split; [apply IH, Hd|].
    constructor; [|constructor].
    apply is_digit_digit, Nat.mod_upper_bound. lia.
Qed.

Lemma int_of_str_snoc a c :
  int_of_str (a ++ [c]) = 10 * int_of_str a + (N.to_nat c - 48).
Proof. unfold int_of_str. rewrite fold_left_app. reflexivity. Qed.

Lemma digit_value d : N.to_nat (digit d) - 48 = d.
Proof. unfold digit. rewrite Nat2N.id. lia. Qed.

Lemma int_of_str_of_nat n : int_of_str (str_of_nat n) = n.
Proof.
  induction n as [n IH] using lt_wf_ind.
  destruct (str_of_nat_cases n) as [[Hn En]|(Hn & Hd & En)]; rewrite En.
  - unfold int_of_str. cbn [fold_left]. rewrite digit_value. lia.
  - rewrite int_of_str_snoc, digit_value, (IH _ Hd).
    pose proof (Nat.div_mod_eq n 10). lia.
Qed.

Lemma int_of_str_zeros k s : int_of_str (repeat ZERO k ++ s) = int_of_str s.
Proof.
  unfold int_of_str. rewrite fold_left_app. f_equal.
  induction k as [|k IH]; [reflexivity|]. simpl. exact IH.
Qed.

Lemma zfill_digits w s :
  s <> [] -> Forall (fun c => is_digit c = true) s ->
  zfill w s = repeat ZERO (Z.to_nat (w - len s)) ++ s.
Proof.
  intros Hne Hd. unfold zfill.
  destruct (w <=? len s)%Z eqn:E.
  - apply Z.leb_le in E.
    replace (Z.to_nat (w - len s)) with 0 by lia. reflexivity.
  - destruct s as [|c r]; [contradiction|].
    inversion Hd as [|? ? Hc _]; subst.
    unfold is_digit in Hc. apply andb_true_iff in Hc as [Hc _].
    apply N.leb_le in Hc.
    assert (E1 : (c =? 43)%N = false) by (apply N.eqb_neq; lia).
    assert (E2 : (c =? 45)%N = false) by (apply N.eqb_neq; lia).
    rewrite E1, E2. reflexivity.
Qed.

Lemma str_of_nat_nonempty n : str_of_nat n <> [].
Proof.
  pose proof (length_str_of_nat_pos n) as H.
  destruct (str_of_nat n); [simpl in H; lia|discriminate].
Qed.

Lemma zfill_str_of_nat w i :
  zfill w (str_of_nat i)
  = repeat ZERO (Z.to_nat (w - len (str_of_nat i))) ++ str_of_nat i.
Proof. apply zfill_digits; [apply str_of_nat_nonempty|apply str_of_nat_digits]. Qed.

Lemma int_of_str_zfill w i : int_of_str (zfill w (str_of_nat i)) = i.
Proof. rewrite zfill_str_of_nat, int_of_str_zeros. apply int_of_str_of_nat. Qed.



Lemma files_written_save_loop d dir base tot w secs : forall i,
  snd (save_loop d dir base tot w i secs) = None ->
  files_written (fst (save_loop d dir base tot w i secs))
  = combine (map (section_filename base w) (seq i (length secs))) secs.
Proof.
  induction secs as [|x r IH]; intros i; [reflexivity|].
  cbn [save_loop length seq map combine].
  specialize (IH (S i)).
  destruct (write_raises d dir (section_filename base w i) x) as [msg|];
    [discriminate|].
  destruct (save_loop d dir base tot w (S i) r) as [evs res].
  cbn [fst snd] in *. intros H.
  cbn [files_written flat_map app]. f_equal. apply IH, H.
Qed.


Lemma files_written_save d sections dir base :
  snd (save_sections_to_files d sections dir base) = None ->
  files_written (fst (save_sections_to_files d sections dir base))
  = combine (map (section_filename base (len (str_of_nat (length sections))))
               (seq 1 (length sections)))
            sections.
Proof.
  unfold save_sections_to_files.
  pose proof (files_written_save_loop d dir base (length sections)
                (len (str_of_nat (length sections))) sections 1) as H.
  destruct (makedirs_raises d dir) as [msg|]; [discriminate|].
  destruct (save_loop d dir base (length sections)
              (len (str_of_nat (length sections))) 1 sections) as [evs res].
  cbn [fst snd] in *. exact H.
Qed.


Lemma map_snd_combine_seq {A B} (f : nat -> A) (l : list B) : forall i,
  map snd (combine (map f (seq i (length l))) l) = l.
Proof.
  induction l as [|x r IH]; intros i; [reflexivity|].
  cbn [length seq map combine snd]. f_equal. apply IH.
Qed.

Lemma zfill_width n i :
  i <= n ->
  length (zfill (len (str_of_nat n)) (str_of_nat i)) = length (str_of_nat n)
  /\ zfill (len (str_of_nat n)) (str_of_nat i)
     = repeat ZERO (length (str_of_nat n) - length (str_of_nat i))
       ++ str_of_nat i.
Proof.
  intros Hi. pose proof (length_str_of_nat_mono n i Hi) as Hm.
  rewrite zfill_str_of_nat. unfold len.
  replace (Z.to_nat (Z.of_nat (length (str_of_nat n))
                     - Z.of_nat (length (str_of_nat i))))
    with (length (str_of_nat n) - length (str_of_nat i)) by lia.
  split; [|reflexivity].
  rewrite length_app, repeat_length. lia.
Qed.



(** ** Backend selection *)

Lemma extract_missing {E} (w : world E) p :
  os_path_exists w p = false ->
  extract_text_from_pdf w p
  = ([PathExists p], inl (FileNotFoundError (not_found_message p))).
Proof.
  intros H. unfold extract_text_from_pdf, path_exists, bind.
  rewrite H. reflexivity.
Qed.

Lemma extract_existing {E} (w : world E) p :
  os_path_exists w p = true ->
  extract_text_from_pdf w p
  = if PDFPLUMBER_AVAILABLE w
    then ([PathExists p; ReadAvailable Pdfplumber; Invoke Pdfplumber p],
          match extract_text_with_pdfplumber w p with
          | inl e => inl (BackendError e)
          | inr text => inr text
          end)
    else if PYPDF2_AVAILABLE w
    then ([PathExists p; ReadAvailable Pdfplumber; ReadAvailable PyPDF2;
           Invoke PyPDF2 p],
          match extract_text_with_pypdf2 w p with
          | inl e => inl (BackendError e)
          | inr text => inr text
          end)
    else ([PathExists p; ReadAvailable Pdfplumber; ReadAvailable PyPDF2],
          inl (ImportError no_backend_message)).
Proof.
  intros H. unfold extract_text_from_pdf, path_exists, available, invoke, bind.
  rewrite H. cbn [negb].
  destruct (PDFPLUMBER_AVAILABLE w); [reflexivity|].
  destruct (PYPDF2_AVAILABLE w); reflexivity.
Qed.

(** C8: when the path does not exist the call raises FileNotFoundError
    having consulted nothing but the path: no availability flag is read and
    no backend is invoked.  When the path exists, the call raises its
    ImportError exactly when neither backend is available. *)
Theorem extract_errors {E} (w : world E) (p : str) :
  (os_path_exists w p = false ->
     extract_text_from_pdf w p
     = ([PathExists p], inl (FileNotFoundError (not_found_message p)))
     /\ forallb (fun a => negb (touches_backend a))
          (fst (extract_text_from_pdf w p)) = true)
  /\ (os_path_exists w p = true ->
      (snd (extract_text_from_pdf w p) = inl (ImportError no_backend_message)
       <-> PDFPLUMBER_AVAILABLE w = false /\ PYPDF2_AVAILABLE w = false)
      /\ ((exists msg, snd (extract_text_from_pdf w p) = inl (ImportError msg))
          <-> PDFPLUMBER_AVAILABLE w = false /\ PYPDF2_AVAILABLE w = false)).
Proof.
  split; intros H.
  - rewrite (extract_missing w p H). split; reflexivity.
  - rewrite (extract_existing w p H).
    destruct (PDFPLUMBER_AVAILABLE w);
      [destruct (extract_text_with_pdfplumber w p)
      |destruct (PYPDF2_AVAILABLE w);
       [destruct (extract_text_with_pypdf2 w p)|]];
      cbn [snd]; split; split;
      try (intros [_ X]; discriminate X);
      try (intros [X _]; discriminate X);
      try (intros [msg X]; discriminate X);
      try (intros X; discriminate X).
    + intros _. split; reflexivity.
    + intros _. reflexivity.
    + intros _. split; reflexivity.
    + intros _. exists no_backend_message. reflexivity.
Qed.

Lemma extract_errors_witness :
  (os_path_exists absent_world (lit "book.pdf") = false
   /\ extract_text_from_pdf absent_world (lit "book.pdf")
      = ([PathExists (lit "book.pdf")],
         inl (FileNotFoundError (lit "PDF file not found: book.pdf"))))
  /\ (os_path_exists bare_world (lit "book.pdf") = true
      /\ (snd (extract_text_from_pdf bare_world (lit "book.pdf"))
            = inl (ImportError no_backend_message)
          <-> PDFPLUMBER_AVAILABLE bare_world = false
              /\ PYPDF2_AVAILABLE bare_world = false)).
Proof.
  split; (split; [reflexivity|]).
  - apply (extract_errors absent_world (lit "book.pdf")). reflexivity.
  - apply (extract_errors bare_world (lit "book.pdf")). reflexivity.
Defined.

(** * Further properties *)

(** ** clean_text keeps what is visible *)

Lemma visible_sub_ws s : forall q, visible (sub_ws q s) = visible s.
Proof.
  induction s as [|c r IH]; intros q; [reflexivity|].
  cbn [sub_ws]. unfold visible in *. destruct (isspace c) eqn:Hc.
  - destruct q; cbn [filter]; rewrite ?isspace_SPACE, Hc; cbn [negb]; apply IH.
  - cbn [filter]. rewrite Hc. cbn [negb]. f_equal. apply IH.
Qed.

Lemma visible_lstrip s : visible (lstrip s) = visible s.
Proof.
  induction s as [|c r IH]; [reflexivity|].
  cbn [lstrip]. destruct (isspace c) eqn:Hc; [|reflexivity].
  unfold visible in *. cbn [filter]. rewrite Hc. exact IH.
Qed.

Lemma visible_rstrip s : visible (rstrip s) = visible s.
Proof.
  induction s as [|c r IH]; [reflexivity|].
  rewrite rstrip_cons. unfold visible in *.
  destruct (isspace c) eqn:Hc; cbn [andb].
  - destruct (rstrip r) as [|a l] eqn:E; cbn [truthy negb filter];
      rewrite Hc; cbn [negb]; rewrite <- IH; reflexivity.
  - cbn [filter]. rewrite Hc. cbn [negb]. f_equal. exact IH.
Qed.

Lemma visible_strip s : visible (strip s) = visible s.
Proof. unfold strip. rewrite visible_rstrip. apply visible_lstrip. Qed.

Lemma visible_clean_text s : visible (clean_text s) = visible s.
Proof. unfold clean_text. rewrite visible_strip. apply visible_sub_ws. Qed.

(** X1: [clean_text] neither drops, adds nor reorders a character that is
    not whitespace. *)
Theorem clean_text_visible (s : str) : visible (clean_text s) = visible s.
Proof. apply visible_clean_text. Qed.

Lemma len_sub_ws s : forall q, (len (sub_ws q s) <= len s)%Z.
Proof.
  induction s as [|c r IH]; intros q; [cbn; lia|].
  pose proof (IH true). pose proof (IH false).
  cbn [sub_ws]. destruct (isspace c); [destruct q|];
    rewrite !len_cons; lia.
Qed.

(** X2: the result of [clean_text] is never longer than its argument. *)
Theorem clean_text_len (s : str) : (len (clean_text s) <= len s)%Z.
Proof.
  unfold clean_text.
  pose proof (len_strip (sub_ws false s)). pose proof (len_sub_ws s false).
  lia.
Qed.

Lemma lstrip_head s :
  match lstrip s with [] => True | c :: _ => isspace c = false end.
Proof.
  induction s as [|c r IH]; [exact I|].
  cbn [lstrip]. destruct (isspace c) eqn:Hc; [exact IH|exact Hc].
Qed.

Lemma lstrip_nil_visible s : lstrip s = [] <-> visible s = [].
Proof.
  rewrite <- (visible_lstrip s). pose proof (lstrip_head s) as H.
  destruct (lstrip s) as [|c r]; [split; reflexivity|].
  unfold visible. cbn [filter]. rewrite H. cbn [negb].
  split; discriminate.
Qed.

Lemma rstrip_cons_visible c r :
  isspace c = false -> rstrip (c :: r) = c :: rstrip r.
Proof. intros H. rewrite rstrip_cons, H. reflexivity. Qed.

Lemma strip_nil_visible s : strip s = [] <-> visible s = [].
Proof.
  rewrite <- lstrip_nil_visible. unfold strip.
  pose proof (lstrip_head s) as H.
  destruct (lstrip s) as [|c r]; [split; reflexivity|].
  rewrite (rstrip_cons_visible _ _ H). split; discriminate.
Qed.

Lemma visible_nil_forall s :
  visible s = [] <-> Forall (fun c => isspace c = true) s.
Proof.
  unfold visible. induction s as [|c r IH]; [split; constructor|].
  cbn [filter]. destruct (isspace c) eqn:Hc; cbn [negb].
  - rewrite IH. split; [intros H; constructor; assumption|].
    intros H. inversion H; assumption.
  - split; [discriminate|]. intros H. inversion H; congruence.
Qed.

Lemma clean_text_nil_visible s : clean_text s = [] <-> visible s = [].
Proof.
  rewrite <- (visible_clean_text s). split; [intros ->; reflexivity|].
  intros Hv. pose proof (tidy_clean_text s) as Ht. unfold tidy in Ht.
  apply andb_true_iff in Ht as [Ht _].
  destruct (clean_text s) as [|c r]; [reflexivity|].
  cbn [spaced] in Ht. unfold visible in Hv. cbn [filter] in Hv.
  destruct (isspace c); [rewrite andb_false_r in Ht|]; discriminate.
Qed.

(** X3: [clean_text] gives the empty text exactly for the texts made of
    whitespace only, which are exactly those that [strip] empties (the test
    by which [main] rejects an extraction). *)
Theorem clean_text_empty_iff (s : str) :
  (clean_text s = [] <-> Forall (fun c => isspace c = true) s)
  /\ (clean_text s = [] <-> strip s = []).
Proof.
  split.
  - rewrite clean_text_nil_visible. apply visible_nil_forall.
  - rewrite clean_text_nil_visible, strip_nil_visible. reflexivity.
Qed.

(** ** Chunks of an arbitrary text *)

Lemma strip_strip x : strip (strip x) = strip x.
Proof.
  unfold strip. pose proof (lstrip_head x) as H.
  destruct (lstrip x) as [|c r]; [reflexivity|].
  rewrite (rstrip_cons_visible _ _ H). cbn [lstrip]. rewrite H.
  rewrite <- (rstrip_cons_visible _ _ H).
  apply ends_tight_rstrip_id, ends_tight_rstrip.
Qed.

Lemma strip_ends x :
  (forall c r, strip x = c :: r -> isspace c = false)
  /\ (forall r c, strip x = r ++ [c] -> isspace c = false).
Proof.
  split.
  - intros c r E. unfold strip in E. pose proof (lstrip_head x) as H.
    destruct (lstrip x) as [|c0 r0]; [discriminate|].
    rewrite (rstrip_cons_visible _ _ H) in E. congruence.
  - intros r c E. pose proof (ends_tight_rstrip (lstrip x)) as H.
    fold (strip x) in H. rewrite E, ends_tight_app in H.
    apply negb_true_iff, H.
Qed.

Section Emitted.

(** A property of every stripped text is a property of every chunk. *)
Variable P : str -> Prop.
Hypothesis P_strip : forall x, P (strip x).
Variable T : Z.

Lemma loop_emits ss : forall (secs : list str) (cur : str),
  Forall P secs -> Forall P (finish (fold_left (step T) ss (secs, cur))).
Proof.
  induction ss as [|s r IH]; intros secs cur Hsecs.
  - unfold finish. cbn [fold_left fst snd].
    destruct (truthy cur); [|assumption].
    apply Forall_app. split; [assumption|]. constructor; [apply P_strip|constructor].
  - cbn [fold_left].
    destruct (step_cases T secs cur s)
      as [[E _]|[(_ & _ & _ & E)|(_ & _ & _ & E)]]; rewrite E; apply IH;
      try assumption;
      (apply Forall_app; split; [assumption|]; constructor;
       [apply P_strip|constructor]).
Qed.

End Emitted.

(** X4: whatever the text and the target size, no chunk starts or ends with
    a whitespace character: each one is left as it is by [strip]. *)
Theorem chunks_stripped (text : str) (T : Z) :
  Forall (fun c => strip c = c
                   /\ (forall x r, c = x :: r -> isspace x = false)
                   /\ (forall r x, c = r ++ [x] -> isspace x = false))
         (split_text_into_sections text T).
Proof.
  rewrite split_text_into_sections_finish.
  apply loop_emits; [|constructor].
  intros x. split; [apply strip_strip|apply strip_ends].
Qed.

Lemma loop_count T ss : forall (secs : list str) (cur : str),
  length (finish (fold_left (step T) ss (secs, cur)))
  <= length secs + (if truthy cur then 1 else 0) + length ss.
Proof.
  induction ss as [|s r IH]; intros secs cur.
  - unfold finish. cbn [fold_left fst snd length].
    destruct (truthy cur); [rewrite length_app; simpl|]; lia.
  - cbn [fold_left length].
    destruct (step_cases T secs cur s)
      as [[E _]|[(Hne & _ & _ & E)|(Hne & _ & _ & E)]]; rewrite E;
      match goal with |- context [fold_left _ r (?a, ?b)] =>
        specialize (IH a b) end.
    + eapply Nat.le_trans; [exact IH|].
      destruct (truthy (append_sentence cur s)), (truthy cur); lia.
    + eapply Nat.le_trans; [exact IH|].
      rewrite length_app. cbn [length truthy].
      destruct cur; [contradiction|]. cbn [truthy]. lia.
    + eapply Nat.le_trans; [exact IH|].
      rewrite length_app. cbn [length].
      destruct cur; [contradiction|]. cbn [truthy].
      destruct (truthy s); lia.
Qed.

(** X5: there are never more chunks than sentences. *)
Theorem chunks_count (text : str) (T : Z) :
  length (split_text_into_sections text T) <= length (split_sentences text).
Proof.
  rewrite split_text_into_sections_finish.
  pose proof (loop_count T (split_sentences text) [] []) as H.
  cbn [length truthy] in H. lia.
Qed.

Section AnyTarget.

(** Any target size [T], and a bound [B] above it and above the hard cap. *)
Variables T B : Z.
Variable ss0 : list str.
Hypothesis T_le_B : (T <= B)%Z.
Hypothesis cap_le_B : (max_chars <= B)%Z.

Let holds (cur : str) : Prop := (len cur <= B)%Z \/ In cur ss0.

Lemma emit_within_bound (secs : list str) (cur : str) :
  Forall (within_bound B ss0) secs -> holds cur ->
  Forall (within_bound B ss0) (secs ++ [strip cur]).
Proof.
  intros Hsecs Hcur. apply Forall_app. split; [assumption|].
  constructor; [|constructor].
  destruct Hcur as [Hcur|Hcur].
  - left. pose proof (len_strip cur). lia.
  - right. exists cur. auto.
Qed.

Lemma loop_within_bound ss : forall (secs : list str) (cur : str),
  incl ss ss0 -> Forall (within_bound B ss0) secs -> holds cur ->
  Forall (within_bound B ss0) (finish (fold_left (step T) ss (secs, cur))).
Proof.
  induction ss as [|s r IH]; intros secs cur Hin Hsecs Hcur.
  - unfold finish. cbn [fold_left fst snd].
    destruct (truthy cur); [|assumption].
    apply emit_within_bound; assumption.
  - cbn [fold_left].
    assert (Hs : In s ss0) by (apply Hin; left; reflexivity).
    assert (Hr : incl r ss0) by (intros x Hx; apply Hin; right; exact Hx).
    destruct (step_cases T secs cur s)
      as [[E C]|[(Hne & Hlo & Hhi & E)|(Hne & Hlo & Hhi & E)]];
      cbv zeta in *; rewrite E; clear E; apply IH; try assumption.
    + destruct C as [->|C]; [right; exact Hs|].
      left. rewrite len_append_sentence. lia.
    + apply emit_within_bound; [assumption|]. left.
      pose proof (len_append_sentence cur s) as Ha.
      unfold append_sentence in Ha.
      destruct cur; [contradiction|]. cbn [truthy] in Ha. lia.
    + left. unfold len, max_chars in *. simpl. lia.
    + apply emit_within_bound; assumption.
    + right. exact Hs.
Qed.

End AnyTarget.

(** X6: whatever the text and the target size [T], a chunk has at most
    [max(T, 4096)] characters unless it is one sentence on its own
    (stripped). *)
Theorem chunk_size_any_target (text : str) (T : Z) :
  Forall (fun c => (len c <= Z.max T 4096)%Z
                   \/ exists s, In s (split_sentences text) /\ c = strip s)
         (split_text_into_sections text T).
Proof.
  rewrite split_text_into_sections_finish.
  apply (loop_within_bound T (Z.max T 4096) (split_sentences text));
    unfold max_chars; try lia; [apply incl_refl|constructor|].
  left. unfold len. simpl. lia.
Qed.

(** ** Texts without a sentence end *)

Lemma re_split_no_stop t :
  Forall (fun c => is_stop c = false) t -> re_split Plain t = [t].
Proof.
  induction t as [|c r IH]; intros H; [reflexivity|].
  inversion H as [|? ? Hc Hr]; subst.
  cbn [re_split]. rewrite Hc, (IH Hr).
  destruct (isspace c); reflexivity.
Qed.

Lemma split_single_sentence (t : str) (T : Z) :
  split_sentences t = [t] -> t <> [] ->
  split_text_into_sections t T = [strip t].
Proof.
  intros E Hne. unfold split_text_into_sections. rewrite E.
  cbn [fold_left step truthy]. rewrite andb_false_r.
  cbn [append_sentence truthy]. destruct t; [contradiction|reflexivity].
Qed.

(** X7: a non-empty text without any of . ! ? is never split, whatever its
    length and the target size: the result is the one chunk [strip t]. *)
Theorem unpunctuated_text_one_chunk (t : str) (T : Z) :
  t <> [] -> Forall (fun c => is_stop c = false) t ->
  split_text_into_sections t T = [strip t].
Proof.
  intros Hne H. apply split_single_sentence; [|exact Hne].
  apply re_split_no_stop, H.
Qed.

Lemma unpunctuated_text_one_chunk_witness :
  lit " no stop, no split " <> []
  /\ Forall (fun c => is_stop c = false) (lit " no stop, no split ")
  /\ split_text_into_sections (lit " no stop, no split ") 5
     = [lit "no stop, no split"].
Proof.
  assert (H : Forall (fun c => is_stop c = false) (lit " no stop, no split "))
    by (repeat constructor).
  split; [discriminate|]. split; [exact H|].
  apply (unpunctuated_text_one_chunk (lit " no stop, no split ") 5);
    [discriminate|exact H].
Defined.

(** X8: a non-empty text made of whitespace only gives one chunk, the empty
    one (so an empty chunk is possible when the text is not normalized). *)
Theorem blank_text_empty_chunk (t : str) (T : Z) :
  t <> [] -> Forall (fun c => isspace c = true) t ->
  split_text_into_sections t T = [[]].
Proof.
  intros Hne H.
  assert (Hs : strip t = []).
  { apply strip_nil_visible, visible_nil_forall, H. }
  rewrite <- Hs. apply split_single_sentence; [|exact Hne].
  apply re_split_no_stop. eapply Forall_impl; [|exact H].
  intros c Hc. destruct (is_stop c) eqn:E; [|reflexivity].
  apply is_stop_not_space in E. congruence.
Qed.

Lemma blank_text_empty_chunk_witness :
  [SPACE; NEWLINE] <> []
  /\ Forall (fun c => isspace c = true) [SPACE; NEWLINE]
  /\ split_text_into_sections [SPACE; NEWLINE] 4090 = [[]].
Proof.
  assert (H : Forall (fun c => isspace c = true) [SPACE; NEWLINE])
    by (repeat constructor).
  split; [discriminate|]. split; [exact H|].
  apply (blank_text_empty_chunk [SPACE; NEWLINE] 4090); [discriminate|exact H].
Defined.

(** ** Why a chunk ends where it does *)

Lemma chain_snoc R l : forall c d,
  chain R (l ++ [c]) -> R c d -> chain R (l ++ [c; d]).
Proof.
  induction l as [|x r IH]; intros c d H Hcd; [simpl; auto|].
  destruct r as [|y r'].
  - cbn [app chain] in *. destruct H as [H _]. auto.
  - change (chain R (x :: y :: (r' ++ [c; d]))).
    change (chain R (x :: y :: (r' ++ [c]))) in H.
    cbn [chain] in H |- *. destruct H as [H1 H2].
    split; [exact H1|]. apply (IH c d H2 Hcd).
Qed.

Lemma chain_prefix R l : forall d, chain R (l ++ [d]) -> chain R l.
Proof.
  induction l as [|x r IH]; intros d H; [exact I|].
  destruct r as [|y r']; [exact I|].
  change (chain R (x :: y :: (r' ++ [d]))) in H.
  cbn [chain] in H |- *. destruct H as [H1 H2].
  split; [exact H1|]. apply (IH d H2).
Qed.

Lemma chain_split R l1 : forall c d l2,
  chain R (l1 ++ c :: d :: l2) -> R c d.
Proof.
  induction l1 as [|x r IH]; intros c d l2 H.
  - cbn [app chain] in H. apply H.
  - change ((x :: r) ++ c :: d :: l2) with (x :: (r ++ c :: d :: l2)) in H.
    cbn [chain] in H.
    destruct (r ++ c :: d :: l2) eqn:E; [destruct r; discriminate|].
    rewrite <- E in H. destruct H as [_ H]. apply (IH _ _ _ H).
Qed.

Section Fill.

Variable T : Z.
Variable ss0 : list str.

(** What the loop maintains: the buffer is empty or a piece, and whatever
    is still appended to it, the chunks stay a chain. *)
Let ready (st : list str * str) : Prop :=
  (snd st = [] \/ piece (snd st))
  /\ forall tl, snd st ++ tl <> [] ->
       chain (filled T ss0) (fst st ++ [snd st ++ tl]).

Lemma step_ready (secs : list str) (cur s : str) :
  piece s -> In s ss0 -> ready (secs, cur) -> ready (step T (secs, cur) s).
Proof.
  intros Hs Hin [Hcur Hch]. cbn [fst snd] in Hcur, Hch.
  assert (Hlen : forall a b, len (a ++ SPACE :: b) = (len a + 1 + len b)%Z)
    by (intros a b; rewrite len_app, len_cons; lia).
  destruct (step_cases T secs cur s)
    as [[E C]|[(Hne & Hlo & Hhi & E)|(Hne & Hlo & Hhi & E)]];
    cbv zeta in *; rewrite E; clear E; split; cbn [fst snd].
  - destruct cur as [|c0 c1]; cbn [append_sentence truthy]; right;
      [exact Hs|].
    destruct Hcur as [Hcur|Hcur]; [discriminate|].
    apply piece_append; assumption.
  - intros tl _. destruct cur as [|c0 c1]; cbn [append_sentence truthy].
    + apply (Hch (s ++ tl)). destruct Hs as [_ Hs]. destruct s; [contradiction|discriminate].
    + rewrite <- app_assoc. apply Hch. discriminate.
  - left. reflexivity.
  - intros tl Htl. cbn [app] in Htl |- *.
    destruct Hcur as [Hcur|Hcur]; [contradiction|].
    rewrite (piece_strip _ (piece_append _ _ Hcur Hs)).
    rewrite <- app_assoc. cbn [app]. apply chain_snoc.
    + apply Hch. destruct cur; discriminate.
    + left. rewrite Hlen.
      unfold potential_length in Hlo.
      destruct cur; [contradiction|]. cbn [truthy] in Hlo. lia.
  - right. exact Hs.
  - intros tl _.
    destruct Hcur as [Hcur|Hcur]; [contradiction|].
    rewrite (piece_strip _ Hcur).
    rewrite <- app_assoc. cbn [app]. apply chain_snoc.
    + specialize (Hch []). rewrite app_nil_r in Hch. apply Hch, Hne.
    + right. exists s, tl. split; [reflexivity|]. split; [exact Hin|].
      unfold potential_length in Hlo, Hhi.
      destruct cur; [contradiction|]. cbn [truthy] in Hlo, Hhi. lia.
Qed.

Lemma loop_ready ss : forall (secs : list str) (cur : str),
  Forall piece ss -> incl ss ss0 -> ready (secs, cur) ->
  chain (filled T ss0) (finish (fold_left (step T) ss (secs, cur))).
Proof.
  induction ss as [|s r IH]; intros secs cur Hp Hin [Hcur Hch].
  - cbn [fold_left fst snd] in *. unfold finish. cbn [fst snd].
    destruct Hcur as [->|Hcur].
    + cbn [truthy]. apply (chain_prefix _ _ [SPACE]).
      apply (Hch [SPACE]). discriminate.
    + rewrite (piece_strip _ Hcur).
      destruct cur as [|c0 c1]; [destruct Hcur; contradiction|].
      cbn [truthy]. specialize (Hch []). rewrite app_nil_r in Hch.
      apply Hch. discriminate.
  - cbn [fold_left]. inversion Hp as [|? ? Hs Hr]; subst.
    assert (Hs0 : In s ss0) by (apply Hin; left; reflexivity).
    pose proof (step_ready secs cur s Hs Hs0 (conj Hcur Hch)) as Hst.
    destruct (step T (secs, cur) s) as [secs1 cur1].
    apply IH; [assumption| |exact Hst].
    intros x Hx. apply Hin. right. exact Hx.
Qed.

End Fill.

Lemma chunks_chain (t : str) (T : Z) :
  normalized t ->
  chain (filled T (split_sentences t)) (split_text_into_sections t T).
Proof.
  intros Hn.
  destruct t as [|t0 t1]; [rewrite split_empty; exact I|].
  apply normalized_tidy in Hn.
  destruct (split_sentences_good (t0 :: t1) Hn) as [G _]; [discriminate|].
  rewrite split_text_into_sections_finish.
  apply loop_ready; [apply good_pieces, G|apply incl_refl|].
  split; cbn [fst snd]; [left; reflexivity|].
  intros tl _. cbn [app chain]. exact I.
Qed.

(** X9: in the chunks of a normalized text, a chunk [c] followed by a chunk
    [d] was closed for a reason: [c] is longer than the target size, or [d]
    starts with a sentence of the text that would have taken [c] past the
    target size and past 4096 characters. *)
Theorem chunks_filled (t : str) (T : Z) (l1 l2 : list str) (c d : str) :
  normalized t ->
  split_text_into_sections t T = l1 ++ c :: d :: l2 ->
  (T < len c)%Z
  \/ exists s tail, d = s ++ tail /\ In s (split_sentences t)
       /\ (T < len c + 1 + len s)%Z /\ (4096 < len c + 1 + len s)%Z.
Proof.
  intros Hn E. pose proof (chunks_chain t T Hn) as H.
  rewrite E in H. apply chain_split in H. exact H.
Qed.

Lemma chunks_filled_witness :
  normalized (lit "A. Hello world. B.")
  /\ split_text_into_sections (lit "A. Hello world. B.") 5
     = [] ++ lit "A. Hello world." :: lit "B." :: []
  /\ ((5 < len (lit "A. Hello world."))%Z
      \/ exists s tail, lit "B." = s ++ tail
           /\ In s (split_sentences (lit "A. Hello world. B."))
           /\ (5 < len (lit "A. Hello world.") + 1 + len s)%Z
           /\ (4096 < len (lit "A. Hello world.") + 1 + len s)%Z).
Proof.
  split; [reflexivity|]. split; [reflexivity|].
  apply (chunks_filled (lit "A. Hello world. B.") 5 [] []
           (lit "A. Hello world.") (lit "B.")); reflexivity.
Defined.

Lemma len_join_head d r : (len d <= len (join (d :: r)))%Z.
Proof.
  destruct r as [|y r']; [cbn [join]; lia|].
  change (join (d :: y :: r')) with (d ++ SPACE :: join (y :: r')).
  rewrite len_app. pose proof (len_nonneg (SPACE :: join (y :: r'))). lia.
Qed.

(** X10: a non-empty normalized text that is not longer than the target
    size comes back as one chunk, the text itself. *)
Theorem short_text_one_chunk (t : str) (T : Z) :
  normalized t -> t <> [] -> (len t <= T)%Z ->
  split_text_into_sections t T = [t].
Proof.
  intros Hn Hne Hlen.
  destruct (chunks_normalized t T Hn Hne) as [G J].
  destruct (split_text_into_sections t T) as [|c [|d r]] eqn:E.
  - contradiction.
  - cbn [join] in J. congruence.
  - exfalso.
    pose proof (chunks_chain t T Hn) as F. rewrite E in F.
    apply (chain_split _ []) in F. unfold filled, max_chars in F.
    change (join (c :: d :: r)) with (c ++ SPACE :: join (d :: r)) in J.
    assert (L : len t = (len c + 1 + len (join (d :: r)))%Z)
      by (rewrite <- J, len_app, len_cons; lia).
    pose proof (len_join_head d r) as Hd.
    pose proof (len_nonneg (join (d :: r))).
    destruct F as [F|(s & tail & -> & _ & F & _)]; [lia|].
    rewrite len_app in Hd. pose proof (len_nonneg tail). lia.
Qed.

Lemma short_text_one_chunk_witness :
  normalized (lit "A. B. C.") /\ lit "A. B. C." <> []
  /\ (len (lit "A. B. C.") <= 8)%Z
  /\ split_text_into_sections (lit "A. B. C.") 8 = [lit "A. B. C."].
Proof.
  split; [reflexivity|]. split; [discriminate|]. split; [discriminate|].
  apply (short_text_one_chunk (lit "A. B. C.") 8);
    [reflexivity|discriminate|discriminate].
Defined.

(** ** Pages *)

Example sample_run :
  main sample_runtime sample_installation sound_disk
       [lit "pdf_splitter.py"; lit "book.pdf"; lit "out"; lit "12"]
  = ([ PrintLine (lit "Processing PDF: book.pdf");
       PrintLine (lit "Target characters per section: 12");
       PrintLine (lit "Output directory: out");
       PrintLine [];
       PrintLine (lit "Extracting text from 3 pages using pdfplumber...");
       PrintLine (lit "Warning: Failed to extract text from page 2: bad page");
       PrintLine (NEWLINE :: lit "Extracted 15 characters from PDF");
       PrintLine (lit "Splitting into sections of ~12 characters...");
       PrintLine (lit "Created 1 sections");
       PrintLine [];
       Makedirs (lit "out");
       WriteFile (lit "out") (lit "book_section_1.txt") (lit "One two. Three!");
       PrintLine (lit "Saved section 1/1: book_section_1.txt (15 characters)");
       PrintLine (NEWLINE :: lit "Completed! All sections saved to: out") ],
     Completed).
Proof. vm_compute. reflexivity. Qed.

Lemma page_loop_text total pages : forall i text,
  snd (Pages.page_loop total i pages text)
  = text ++ flat_map Pages.contribution pages.
Proof.
  induction pages as [|pg rest IH]; intros i text.
  - simpl. rewrite app_nil_r. reflexivity.
  - cbn [Pages.page_loop flat_map]. destruct pg as [msg|page_text].
    + specialize (IH (S i) text).
      destruct (Pages.page_loop total (S i) rest text) as [out text'].
      cbn [snd Pages.contribution] in *. exact IH.
    + match goal with |- context [Pages.page_loop _ _ _ ?t] =>
        specialize (IH (S i) t);
        destruct (Pages.page_loop total (S i) rest t) as [out text'] end.
      cbn [snd] in *. rewrite IH.
      destruct page_text as [[|c r]|]; cbn [Pages.contribution];
        rewrite <- ?app_assoc; reflexivity.
Qed.

Lemma page_loop_lines total pages : forall i text,
  fst (Pages.page_loop total i pages text)
  = flat_map (Pages.page_lines total) (combine (seq i (length pages)) pages).
Proof.
  induction pages as [|pg rest IH]; intros i text; [reflexivity|].
  cbn [Pages.page_loop length seq combine flat_map].
  destruct pg as [msg|page_text].
  - specialize (IH (S i) text).
    destruct (Pages.page_loop total (S i) rest text) as [out text'].
    cbn [fst Pages.page_lines app] in *. rewrite IH. reflexivity.
  - match goal with |- context [Pages.page_loop _ _ _ ?t] =>
      specialize (IH (S i) t);
      destruct (Pages.page_loop total (S i) rest t) as [out text'] end.
    cbn [fst Pages.page_lines] in *. rewrite IH. reflexivity.
Qed.

Lemma extract_text_with_text {E} name (opened : E + list Pages.page) :
  snd (Pages.extract_text_with name opened)
  = match opened with
    | inl e => inl e
    | inr pages => inr (flat_map Pages.contribution pages)
    end.
Proof.
  unfold Pages.extract_text_with. destruct opened as [e|pages]; [reflexivity|].
  pose proof (page_loop_text (length pages) pages 1 []) as H.
  destruct (Pages.page_loop (length pages) 1 pages []) as [out text].
  cbn [snd app] in *. rewrite H. reflexivity.
Qed.

Lemma extract_text_with_lines {E} name (opened : E + list Pages.page) :
  fst (Pages.extract_text_with name opened)
  = match opened with
    | inl e => []
    | inr pages =>
        PrintLine (lit "Extracting text from " ++ str_of_nat (length pages)
                   ++ lit " pages using " ++ name ++ lit "...")
        :: flat_map (Pages.page_lines (length pages))
             (combine (seq 1 (length pages)) pages)
    end.
Proof.
  unfold Pages.extract_text_with. destruct opened as [e|pages]; [reflexivity|].
  pose proof (page_loop_lines (length pages) pages 1 []) as H.
  destruct (Pages.page_loop (length pages) 1 pages []) as [out text].
  cbn [fst] in *. rewrite H. reflexivity.
Qed.




(** ** main *)

Lemma prints_only_app a b :
  prints_only (a ++ b) = prints_only a && prints_only b.
Proof. apply forallb_app. Qed.

Lemma prints_only_files l : prints_only l = true -> files_written l = [].
Proof.
  induction l as [|e r IH]; intros H; [reflexivity|].
  cbn [prints_only forallb] in H. apply andb_true_iff in H as [He Hr].
  destruct e; try discriminate. cbn [files_written flat_map app].
  apply IH, Hr.
Qed.

Lemma files_written_app a b :
  files_written (a ++ b) = files_written a ++ files_written b.
Proof. apply flat_map_app. Qed.

Lemma extract_text_with_prints {E} name (opened : E + list Pages.page) :
  prints_only (fst (Pages.extract_text_with name opened)) = true.
Proof.
  rewrite extract_text_with_lines. destruct opened as [e|pages]; [reflexivity|].
  cbn [prints_only forallb touches_disk negb andb].
  generalize (combine (seq 1 (length pages)) pages).
  induction l as [|[i pg] r IH]; [reflexivity|].
  cbn [flat_map]. fold (prints_only (Pages.page_lines (length pages) (i, pg)
                          ++ flat_map (Pages.page_lines (length pages)) r)).
  rewrite prints_only_app. unfold prints_only at 2. rewrite IH, andb_true_r.
  destruct pg; cbn [Pages.page_lines]; [reflexivity|].
  destruct (i mod 10 =? 0); reflexivity.
Qed.

Lemma extract_traced_cases {E} (inst : installation E) p :
  extract_traced inst p
  = if file_exists inst p then
      if has_pdfplumber inst then
        (fst (Pages.extract_text_with_pdfplumber (pdfplumber_open inst) p),
         match pdfplumber_open inst p with
         | inl e => inl (BackendError e)
         | inr pages => inr (flat_map Pages.contribution pages)
         end)
      else if has_pypdf2 inst then
        (fst (Pages.extract_text_with_pypdf2 (pypdf2_reader inst) p),
         match pypdf2_reader inst p with
         | inl e => inl (BackendError e)
         | inr pages => inr (flat_map Pages.contribution pages)
         end)
      else ([], inl (ImportError no_backend_message))
    else ([], inl (FileNotFoundError (not_found_message p))).
Proof.
  unfold extract_traced.
  destruct (file_exists inst p) eqn:Hex.
  - rewrite (extract_existing (world_of inst) p Hex).
    cbn [world_of PDFPLUMBER_AVAILABLE PYPDF2_AVAILABLE
         extract_text_with_pdfplumber extract_text_with_pypdf2].
    destruct (has_pdfplumber inst); [|destruct (has_pypdf2 inst)];
      cbn [flat_map app]; rewrite ?app_nil_r; [| |reflexivity].
    + f_equal. unfold Pages.extract_text_with_pdfplumber.
      rewrite extract_text_with_text.
      destruct (pdfplumber_open inst p); reflexivity.
    + f_equal. unfold Pages.extract_text_with_pypdf2.
      rewrite extract_text_with_text.
      destruct (pypdf2_reader inst p); reflexivity.
  - rewrite (extract_missing (world_of inst) p Hex). reflexivity.
Qed.

Lemma extract_traced_prints {E} (inst : installation E) p :
  prints_only (fst (extract_traced inst p)) = true.
Proof.
  rewrite extract_traced_cases.
  destruct (file_exists inst p); [|reflexivity].
  destruct (has_pdfplumber inst); [|destruct (has_pypdf2 inst)];
    cbn [fst]; try reflexivity; apply extract_text_with_prints.
Qed.

Lemma extract_traced_result {E} (inst : installation E) p :
  snd (extract_traced inst p) = snd (extract_text_from_pdf (world_of inst) p).
Proof.
  unfold extract_traced.
  destruct (extract_text_from_pdf (world_of inst) p). reflexivity.
Qed.








Example run_second_file_refused :
  main sample_runtime two_chunk_installation second_file_refused
       [lit "pdf_splitter.py"; lit "book.pdf"; lit "out"; lit "12"]
  = ([ PrintLine (lit "Processing PDF: book.pdf");
       PrintLine (lit "Target characters per section: 12");
       PrintLine (lit "Output directory: out");
       PrintLine [];
       PrintLine (lit "Extracting text from 2 pages using PyPDF2...");
       PrintLine (NEWLINE :: lit "Extracted 17 characters from PDF");
       PrintLine (lit "Splitting into sections of ~12 characters...");
       PrintLine (lit "Created 2 sections");
       PrintLine [];
       Makedirs (lit "out");
       WriteFile (lit "out") (lit "book_section_1.txt") (lit "A. B. C. D. E.");
       PrintLine (lit "Saved section 1/2: book_section_1.txt (14 characters)");
       WriteRaises (lit "out") (lit "book_section_2.txt") (lit "F.")
         (lit "disk full");
       PrintLine (lit "Error: disk full") ],
     SystemExit 1).
Proof. vm_compute. reflexivity. Qed.




(** X15: when [main] completes, the contents of the files it has written
    are, in order, the chunks of the cleaned extracted text for the target
    size given; none is empty; joined by single spaces they give the cleaned
    text back, so every character of the extracted text that is not
    whitespace is in the files, in order. *)
Theorem main_files {E} (rt : runtime E) (inst : installation E) (d : disk)
    (prog p : str) (rest : list str) :
  snd (main rt inst d (prog :: p :: rest)) = Completed ->
  exists raw_text T,
    target_of rt rest = Some T
    /\ snd (extract_text_from_pdf (world_of inst) p) = inr raw_text
    /\ map snd (files_written (fst (main rt inst d (prog :: p :: rest))))
       = split_text_into_sections (clean_text raw_text) T
    /\ Forall (fun c => c <> [])
         (map snd (files_written (fst (main rt inst d (prog :: p :: rest)))))
    /\ join (map snd (files_written (fst (main rt inst d (prog :: p :: rest)))))
       = clean_text raw_text
    /\ visible
         (join (map snd
                  (files_written (fst (main rt inst d (prog :: p :: rest))))))
       = visible raw_text.
Proof.
  intros H. pose proof (extract_traced_result inst p) as Hres.
  pose proof (extract_traced_prints inst p) as Hout.
  unfold main in *.
  destruct (target_of rt rest) as [T|]; [|discriminate].
  destruct (extract_traced inst p) as [out [e|raw]]; [discriminate|].
  cbn [fst snd] in Hres, Hout.
  destruct (negb (truthy (strip raw))) eqn:Hraw; [discriminate|].
  apply negb_false_iff in Hraw.
  assert (Hne : clean_text raw <> []).
  { intros Hc. apply clean_text_nil_visible, strip_nil_visible in Hc.
    rewrite Hc in Hraw. discriminate. }
  assert (Hn : normalized (clean_text raw))
    by (apply normalized_tidy, tidy_clean_text).
  destruct (chunks_normalized (clean_text raw) T Hn Hne) as [G J].
  pose proof (files_written_save d
                (split_text_into_sections (clean_text raw) T)
                (output_dir_of rest) (path_stem rt p)) as Hsave.
  destruct (save_sections_to_files d
              (split_text_into_sections (clean_text raw) T)
              (output_dir_of rest) (path_stem rt p)) as [saved [msg|]];
    [discriminate|].
  cbn [fst snd] in Hsave. specialize (Hsave eq_refl).
  exists raw, T. split; [reflexivity|]. split; [symmetry; exact Hres|].
  cbn [fst].
  repeat rewrite files_written_app.
  rewrite (prints_only_files out Hout), Hsave.
  cbn [files_written flat_map app]. rewrite app_nil_r.
  rewrite map_snd_combine_seq.
  split; [reflexivity|]. split; [|split; [exact J|]].
  - eapply Forall_impl; [|apply good_pieces, G]. intros c [_ Hc]. exact Hc.
  - rewrite J. apply visible_clean_text.
Qed.

Lemma main_files_witness :
  snd (main sample_runtime sample_installation sound_disk
         [lit "pdf_splitter.py"; lit "book.pdf"; lit "out"; lit "12"])
  = Completed
  /\ exists raw_text T,
       target_of sample_runtime [lit "out"; lit "12"] = Some T
       /\ snd (extract_text_from_pdf (world_of sample_installation)
                 (lit "book.pdf")) = inr raw_text
       /\ map snd (files_written (fst (main sample_runtime sample_installation
             sound_disk
             [lit "pdf_splitter.py"; lit "book.pdf"; lit "out"; lit "12"])))
          = split_text_into_sections (clean_text raw_text) T.
Proof.
  split; [reflexivity|].
  destruct (main_files sample_runtime sample_installation sound_disk
              (lit "pdf_splitter.py") (lit "book.pdf") [lit "out"; lit "12"]
              eq_refl) as (raw & T & H1 & H2 & H3 & _).
  exists raw, T. auto.
Defined.

(** ** Which backend runs *)

(** X16: at most one backend is invoked: pdfplumber whenever it is
    available and the file exists, PyPDF2 only when pdfplumber is not
    available; the result of the call is the result of that backend, text or
    exception, so a failure of pdfplumber is not retried with PyPDF2. *)
Theorem backend_precedence {E} (w : world E) (p : str) :
  invoked (fst (extract_text_from_pdf w p))
  = (if os_path_exists w p then
       if PDFPLUMBER_AVAILABLE w then [Pdfplumber]
       else if PYPDF2_AVAILABLE w then [PyPDF2] else []
     else [])
  /\ (forall e, snd (extract_text_from_pdf w p) = inl (BackendError e) ->
        (PDFPLUMBER_AVAILABLE w = true
         /\ extract_text_with_pdfplumber w p = inl e)
        \/ (PDFPLUMBER_AVAILABLE w = false
            /\ extract_text_with_pypdf2 w p = inl e))
  /\ (forall text, snd (extract_text_from_pdf w p) = inr text ->
        (PDFPLUMBER_AVAILABLE w = true
         /\ extract_text_with_pdfplumber w p = inr text)
        \/ (PDFPLUMBER_AVAILABLE w = false
            /\ extract_text_with_pypdf2 w p = inr text)).
Proof.
  destruct (os_path_exists w p) eqn:Hex.
  - rewrite (extract_existing w p Hex).
    destruct (PDFPLUMBER_AVAILABLE w); [|destruct (PYPDF2_AVAILABLE w)];
      cbn [fst snd invoked flat_map app].
    + split; [reflexivity|].
      destruct (extract_text_with_pdfplumber w p);
        split; intros x Hx; try discriminate; left; split; congruence.
    + split; [reflexivity|].
      destruct (extract_text_with_pypdf2 w p);
        split; intros x Hx; try discriminate; right; split; congruence.
    + split; [reflexivity|]. split; intros x Hx; discriminate.
  - rewrite (extract_missing w p Hex). cbn [fst snd invoked flat_map app].
    split; [reflexivity|]. split; intros x Hx; discriminate.
Qed.

(** ** File names sort in chunk order *)

Lemma str_lt_app_head p : forall a b, str_lt a b -> str_lt (p ++ a) (p ++ b).
Proof.
  induction p as [|x r IH]; intros a b H; [exact H|].
  cbn [app str_lt]. right. split; [reflexivity|apply IH, H].
Qed.

Lemma str_lt_app_tail a : forall b t,
  length a = length b -> str_lt a b -> str_lt (a ++ t) (b ++ t).
Proof.
  induction a as [|x a' IH]; intros b t Hl H; destruct b as [|y b'];
    try discriminate; cbn [str_lt] in H; [contradiction|].
  cbn [app str_lt]. destruct H as [H|[-> H]]; [left; exact H|].
  right. split; [reflexivity|]. apply IH; [|exact H].
  simpl in Hl. lia.
Qed.

Lemma int_of_str_fold a : forall acc,
  fold_left (fun acc c => 10 * acc + (N.to_nat c - 48)) a acc
  = acc * 10 ^ length a + int_of_str a.
Proof.
  unfold int_of_str.
  induction a as [|x a' IH]; intros acc; [simpl; lia|].
  cbn [fold_left length]. rewrite (IH (10 * acc + _)), (IH (10 * 0 + _)).
  rewrite Nat.pow_succ_r'. ring.
Qed.

Lemma int_of_str_cons x a :
  int_of_str (x :: a) = (N.to_nat x - 48) * 10 ^ length a + int_of_str a.
Proof.
  unfold int_of_str at 1. cbn [fold_left]. rewrite int_of_str_fold.
  reflexivity.
Qed.

Lemma int_of_str_bound a :
  Forall (fun c => is_digit c = true) a -> int_of_str a < 10 ^ length a.
Proof.
  induction a as [|x a' IH]; intros H; [cbv; lia|].
  inversion H as [|? ? Hx Ha]; subst. specialize (IH Ha).
  rewrite int_of_str_cons. cbn [length]. rewrite Nat.pow_succ_r'.
  unfold is_digit in Hx. apply andb_true_iff in Hx as [_ Hx].
  apply N.leb_le in Hx.
  assert (N.to_nat x - 48 <= 9) by lia. nia.
Qed.

Lemma digits_lt a : forall b,
  length a = length b ->
  Forall (fun c => is_digit c = true) a ->
  Forall (fun c => is_digit c = true) b ->
  int_of_str a < int_of_str b -> str_lt a b.
Proof.
  induction a as [|x a' IH]; intros b Hl Ha Hb H; destruct b as [|y b'];
    try discriminate; [unfold int_of_str in H; simpl in H; lia|].
  inversion Ha as [|? ? Hx Ha']; inversion Hb as [|? ? Hy Hb']; subst.
  assert (Hl' : length a' = length b') by (simpl in Hl; lia).
  rewrite !int_of_str_cons, <- Hl' in H.
  pose proof (int_of_str_bound _ Ha') as Ba.
  pose proof (int_of_str_bound _ Hb') as Bb. rewrite <- Hl' in Bb.
  unfold is_digit in Hx, Hy.
  apply andb_true_iff in Hx as [Hx1 Hx2].
  apply andb_true_iff in Hy as [Hy1 Hy2].
  apply N.leb_le in Hx1, Hx2, Hy1, Hy2.
  cbn [str_lt].
  destruct (lt_eq_lt_dec (N.to_nat x - 48) (N.to_nat y - 48)) as [[Hlt|Heq]|Hgt].
  - left. lia.
  - right. split; [lia|]. apply IH; try assumption. rewrite Heq in H. lia.
  - exfalso. nia.
Qed.

Lemma zfill_digits_all w i :
  Forall (fun c => is_digit c = true) (zfill w (str_of_nat i)).
Proof.
  rewrite zfill_str_of_nat. apply Forall_app. split; [|apply str_of_nat_digits].
  apply Forall_forall. intros c Hc. apply repeat_spec in Hc. subst c.
  reflexivity.
Qed.

(** X17: the names of the files of a run compare, as strings, like their
    numbers: for [i < j <= N] the name of file [i] comes before the name of
    file [j], so sorting the names gives the chunks in order. *)
Theorem section_filenames_ordered (base_name : str) (N i j : nat) :
  i < j -> j <= N ->
  str_lt (section_filename base_name (len (str_of_nat N)) i)
         (section_filename base_name (len (str_of_nat N)) j).
Proof.
  intros Hij HjN. unfold section_filename.
  apply str_lt_app_head, str_lt_app_head.
  destruct (zfill_width N i) as [Li _]; [lia|].
  destruct (zfill_width N j HjN) as [Lj _].
  apply str_lt_app_tail; [congruence|].
  apply digits_lt; [congruence|apply zfill_digits_all|apply zfill_digits_all|].
  rewrite !int_of_str_zfill. exact Hij.
Qed.

Lemma section_filenames_ordered_witness :
  9 < 10 /\ 10 <= 12
  /\ str_lt (lit "book_section_09.txt") (lit "book_section_10.txt").
Proof.
  split; [lia|]. split; [lia|].
  apply (section_filenames_ordered (lit "book") 12 9 10); lia.
Defined.

(** ** How far a chunk passes the target size *)

Section Soft.

Variable T : Z.
Variable ss0 : list str.

Let buffer_near (cur : str) : Prop :=
  cur = [] \/ (piece cur /\ ((len cur <= T)%Z \/ In cur ss0)).

Lemma step_near (secs : list str) (cur s : str) :
  piece s -> In s ss0 -> Forall (near_target T ss0) secs -> buffer_near cur ->
  let st' := step T (secs, cur) s in
  Forall (near_target T ss0) (fst st') /\ buffer_near (snd st').
Proof.
  intros Hs Hin Hsecs Hcur.
  destruct (step_cases T secs cur s)
    as [[E C]|[(Hne & Hlo & Hhi & E)|(Hne & Hlo & Hhi & E)]];
    cbv zeta in *; rewrite E; clear E; cbn [fst snd].
  - split; [assumption|]. right.
    destruct Hcur as [->|[Hp Hcur]]; [cbn [append_sentence truthy]; auto|].
    destruct C as [->|C]; [cbn [append_sentence truthy]; auto|].
    pose proof (len_append_sentence cur s) as Hl.
    unfold append_sentence in *.
    destruct cur as [|c0 c1]; [destruct Hp; contradiction|]. cbn [truthy] in *.
    split; [apply piece_append; assumption|]. left. lia.
  - destruct Hcur as [Hcur|[Hp Hcur]]; [contradiction|].
    split; [|left; reflexivity].
    apply Forall_app. split; [assumption|]. constructor; [|constructor].
    rewrite (piece_strip _ (piece_append _ _ Hp Hs)).
    right. right. exists cur, s.
    pose proof (len_append_sentence cur s) as Hl.
    unfold append_sentence in Hl.
    destruct cur as [|c0 c1]; [contradiction|]. cbn [truthy] in Hl.
    repeat split; try assumption. lia.
  - destruct Hcur as [Hcur|[Hp Hcur]]; [contradiction|].
    split; [|right; auto].
    apply Forall_app. split; [assumption|]. constructor; [|constructor].
    rewrite (piece_strip _ Hp). destruct Hcur; [left|right; left]; assumption.
Qed.

Lemma loop_near ss : forall (secs : list str) (cur : str),
  Forall piece ss -> incl ss ss0 ->
  Forall (near_target T ss0) secs -> buffer_near cur ->
  Forall (near_target T ss0) (finish (fold_left (step T) ss (secs, cur))).
Proof.
  induction ss as [|s r IH]; intros secs cur Hp Hin Hsecs Hcur.
  - unfold finish. cbn [fold_left fst snd].
    destruct Hcur as [->|[Hpc Hcur]]; [exact Hsecs|].
    rewrite (piece_strip _ Hpc).
    destruct cur as [|c0 c1]; [exact Hsecs|]. cbn [truthy].
    apply Forall_app. split; [assumption|]. constructor; [|constructor].
    destruct Hcur; [left|right; left]; assumption.
  - cbn [fold_left]. inversion Hp as [|? ? Hs Hr]; subst.
    assert (Hs0 : In s ss0) by (apply Hin; left; reflexivity).
    destruct (step_near secs cur s Hs Hs0 Hsecs Hcur) as [A B].
    destruct (step T (secs, cur) s) as [secs1 cur1].
    apply IH; try assumption.
    intros x Hx. apply Hin. right. exact Hx.
Qed.

End Soft.

(** X18: a chunk of a normalized text passes the target size [T] only by
    its last sentence: it has at most [T] characters, or is one sentence of
    the text, or is [a] followed by a space and a sentence [s] of the text,
    with at most 4096 characters in all, where [a] has at most [T]
    characters or is one sentence of the text. *)
Theorem chunks_near_target (t : str) (T : Z) :
  normalized t ->
  Forall (fun c =>
            (len c <= T)%Z \/ In c (split_sentences t)
            \/ exists a s, c = a ++ SPACE :: s /\ In s (split_sentences t)
                 /\ (len c <= 4096)%Z
                 /\ ((len a <= T)%Z \/ In a (split_sentences t)))
         (split_text_into_sections t T).
Proof.
  intros Hn.
  destruct t as [|t0 t1]; [rewrite split_empty; constructor|].
  apply normalized_tidy in Hn.
  destruct (split_sentences_good (t0 :: t1) Hn) as [G _]; [discriminate|].
  rewrite split_text_into_sections_finish.
  apply (loop_near T (split_sentences (t0 :: t1)));
    [apply good_pieces, G|apply incl_refl|constructor|left; reflexivity].
Qed.

Lemma chunks_near_target_witness :
  normalized (lit "A. Hello world. B.")
  /\ Forall (fun c =>
               (len c <= 5)%Z \/ In c (split_sentences (lit "A. Hello world. B."))
               \/ exists a s, c = a ++ SPACE :: s
                    /\ In s (split_sentences (lit "A. Hello world. B."))
                    /\ (len c <= 4096)%Z
                    /\ ((len a <= 5)%Z
                        \/ In a (split_sentences (lit "A. Hello world. B."))))
            [lit "A. Hello world."; lit "B."].
Proof.
  split; [reflexivity|].
  apply (chunks_near_target (lit "A. Hello world. B.") 5). reflexivity.
Defined.

(** ** Progress lines *)

Example ten_pages_progress :
  fst (Pages.extract_text_with_pdfplumber
         (fun _ : str => @inr unit _ (repeat (Pages.Gives None) 10))
         (lit "book.pdf"))
  = [ PrintLine (lit "Extracting text from 10 pages using pdfplumber...");
      PrintLine (lit "Processed 10/10 pages...") ].
Proof. vm_compute. reflexivity. Qed.

Example tenth_page_fails :
  fst (Pages.extract_text_with_pypdf2
         (fun _ : str => @inr unit _
            (repeat (Pages.Gives None) 9 ++ [Pages.Fails (lit "boom")]))
         (lit "book.pdf"))
  = [ PrintLine (lit "Extracting text from 10 pages using PyPDF2...");
      PrintLine (lit "Warning: Failed to extract text from page 10: boom") ].
Proof. vm_compute. reflexivity. Qed.

(** ** When a write fails *)



